(** * Sample-set preprocessors and trimmed squared loss

    A shallow embedding of [src/loss.py] and [src/preprocessor.py].

    Modelling conventions.
    - The numbers that the program returns (losses, gradients, means) are
      exact rationals [Q]; equality of computed numbers is [Qeq] ([==]),
      and rounding in these values is outside the model.
    - The integers that the program derives from floating-point numbers
      (the kept size, the window bounds, the threshold size) decide which
      samples are used.  They are computed on binary64 numbers as the
      program computes them ([kept_size_binary64], [windows_binary64],
      [threshold_size_binary64]); the definitions [kept_size_of],
      [windows] and [KernelPreprocessor_call] take the same steps on exact
      rationals and serve the statements that do not depend on the value
      of these integers.
    - A one-dimensional [ndarray] is a [list Q]; a two-dimensional one is a
      [matrix]: its rows together with the column count, so that the shape
      of a matrix without rows is still known.
    - A Python exception is a value of [exn]; code that can raise returns
      a [result].
    - The library calls [np.argsort] and [DBSCAN(...).fit(...).labels_] are
      interfaces ([ArgSort], [Labeler]) with the contracts their
      documentation gives; [numpy_argsort] is the sort that [np.argsort]
      runs by default. *)

From Stdlib Require Import String.
From Stdlib Require Import QArith Qround ZArith List Lia Bool.
From Stdlib Require Import Permutation Sorted Morphisms Setoid Lqa.
From Stdlib Require Import PrimFloat SpecFloat FloatOps FloatAxioms Uint63.
Import ListNotations.

(** ** Python exceptions and fallible computations *)

Module Py.

Inductive exn : Type :=
| ZeroDivisionError
| ValueError
| IndexError
| OverflowError
| AttributeError
| NotImplementedError.

Inductive result (A : Type) : Type :=
| Ok (a : A)
| Raise (e : exn).

Arguments Ok {A} a.
Arguments Raise {A} e.

Definition bind {A B : Type} (m : result A) (k : A -> result B) : result B :=
  match m with
  | Ok a => k a
  | Raise e => Raise e
  end.

End Py.
Import Py.

Notation "x <- m ;; k" := (Py.bind m (fun x => k))
  (at level 61, m at next level, right associativity).
Notation "' p <- m ;; k" := (Py.bind m (fun p => k))
  (at level 61, p pattern, m at next level, right associativity).

Open Scope Q_scope.

(** ** Python and numpy primitives used by the two modules *)

(** [len(l)] / [a.shape[0]] as a Python [int]. *)
Definition len {A : Type} (l : list A) : Z := Z.of_nat (length l).

(** [math.ceil] on an exact number. *)
Definition ceil (q : Q) : Z := Qceiling q.

(** [int(q)]: truncation toward zero. *)
Definition int (q : Q) : Z := Z.quot (Qnum q) (Zpos (Qden q)).

(** The builtin [sum]: a left-to-right accumulation starting from [0]. *)
Definition sum (l : list Q) : Q := fold_left Qplus l 0.

(** [a / k] for a Python [int] divisor [k].  In both modules the dividend is
    the [int] 0 whenever the divisor is 0, so Python raises
    [ZeroDivisionError]. *)
Definition div_int (a : Q) (k : Z) : result Q :=
  if (k =? 0)%Z then Raise ZeroDivisionError else Ok (a / inject_Z k).

(** [l[:k]] for a possibly negative [k]. *)
Definition slice_to {A : Type} (k : Z) (l : list A) : list A :=
  if (0 <=? k)%Z then firstn (Z.to_nat k) l
  else firstn (length l - Z.to_nat (- k)) l.

(** [range(lo, hi)] *)
Definition range (lo hi : Z) : list Z :=
  map (fun i => (lo + Z.of_nat i)%Z) (seq 0 (Z.to_nat (hi - lo))).

(** Integer-array indexing [a[idx]]; an index past the end raises
    [IndexError].  (The indices used here are never negative.) *)
Fixpoint take {A : Type} (a : list A) (idx : list nat) : result (list A) :=
  match idx with
  | [] => Ok []
  | i :: idx' =>
      match nth_error a i with
      | Some v => vs <- take a idx' ;; Ok (v :: vs)
      | None => Raise IndexError
      end
  end.

(** Two-dimensional arrays. *)
Record matrix : Type := Matrix { ncols : nat; rows : list (list Q) }.

Definition shape0 (X : matrix) : Z := len (rows X).

Definition well_shaped (X : matrix) : Prop :=
  Forall (fun r => length r = ncols X) (rows X).

(** The inner product of two vectors of one length. *)
Fixpoint inner (u v : list Q) : Q :=
  match u, v with
  | a :: u', b :: v' => a * b + inner u' v'
  | _, _ => 0
  end.

(** [X.dot(v)] for a matrix and a vector; the inner dimensions must agree. *)
Definition dot (X : matrix) (v : list Q) : result (list Q) :=
  if Nat.eqb (ncols X) (length v)
  then Ok (map (fun r => inner r v) (rows X))
  else Raise ValueError.

(** [X.transpose()] *)
Definition transpose (X : matrix) : matrix :=
  Matrix (length (rows X))
         (map (fun j => map (fun r => nth j r 0) (rows X)) (seq 0 (ncols X))).

(** [X[idx]]: the rows selected by an integer array. *)
Definition take_rows (X : matrix) (idx : list nat) : result matrix :=
  rs <- take (rows X) idx ;; Ok (Matrix (ncols X) rs).

(** [a - b] on vectors, with numpy's broadcasting of a one-element operand. *)
Definition sub (a b : list Q) : result (list Q) :=
  if Nat.eqb (length a) (length b) then
    Ok (map (fun p => fst p - snd p) (combine a b))
  else
    match a, b with
    | _, [b0] => Ok (map (fun ai => ai - b0) a)
    | [a0], _ => Ok (map (fun bi => a0 - bi) b)
    | _, _ => Raise ValueError
    end.

(** [np.square] *)
Definition square (a : list Q) : list Q := map (fun r => r * r) a.

(** [a.min()]; an empty array raises [ValueError]. *)
Definition min (a : list Q) : result Q :=
  match a with
  | [] => Raise ValueError
  | a0 :: a' => Ok (fold_left (fun m v => if Qle_bool v m then v else m) a' a0)
  end.

(** ** The [np.argsort] interface

    [np.argsort(a)] with the default [kind] returns the indices that sort
    [a] in ascending order.  The default kind is not a stable sort, so the
    contract fixes nothing about the order of indices with equal keys. *)

Class ArgSort : Type := argsort : list Q -> list nat.

(** Index [i] may come before index [j] in an ascending order of [a]. *)
Definition ascending (a : list Q) (i j : nat) : Prop :=
  nth i a 0 <= nth j a 0.

Class ArgSortLaws (A : ArgSort) : Prop := {
  argsort_perm : forall a, Permutation (argsort a) (seq 0 (length a));
  argsort_sorted : forall a, StronglySorted (ascending a) (argsort a)
}.

(** Two implementations, both by insertion.  The indices are inserted in
    increasing order; index [i] moves past every [j] with [pass a[j] a[i]]. *)
Fixpoint insert_index (pass : Q -> Q -> bool) (a : list Q) (i : nat)
    (sorted : list nat) : list nat :=
  match sorted with
  | [] => [i]
  | j :: rest =>
      if pass (nth j a 0) (nth i a 0)
      then j :: insert_index pass a i rest
      else i :: j :: rest
  end.

Definition insertion_argsort (pass : Q -> Q -> bool) (a : list Q) : list nat :=
  fold_left (fun sorted i => insert_index pass a i sorted)
            (seq 0 (length a)) [].

(** Equal keys keep their original order. *)
Definition stable_argsort : ArgSort := insertion_argsort Qle_bool.

(** Equal keys end up in reverse order: a second sort within the contract,
    not the one numpy runs (for that see [numpy_argsort]). *)
Definition reversing_argsort : ArgSort :=
  insertion_argsort (fun kj ki => negb (Qle_bool ki kj)).

(** ** loss.py *)

Record Loss : Type := { contamination_proportion : Q }.

(** [Loss.__init__], reached from [SquaredLoss.__init__] through [super()]:
    it stores its argument and has no [raise]. *)
Definition Loss_init (contamination_proportion : Q) : result Loss :=
  Ok {| contamination_proportion := contamination_proportion |}.

Definition SquaredLoss_init (contamination_proportion : Q) : result Loss :=
  Loss_init contamination_proportion.

(** [Loss.__call__] of the abstract base class. *)
Definition Loss_call (self : Loss) (X : matrix) (w y : list Q)
  : result (Q * list Q) := Raise NotImplementedError.

Section SquaredLoss.

Context {A : ArgSort}.

(** Line 21: [kept_size = ceil(X.shape[0] * (1 - contamination))], on
    exact rationals.  The program rounds the difference and the product
    before taking the ceiling, see [kept_size_binary64]; this reading is
    used for statements that hold whatever the kept size is within its
    range. *)
Definition kept_size_of (self : Loss) (X : matrix) : Z :=
  ceil (inject_Z (shape0 X) * (1 - contamination_proportion self)).

(** Line 24: [kept_indices = np.argsort(losses)[:kept_size]] *)
Definition kept_indices_of (kept_size : Z) (losses : list Q) : list nat :=
  slice_to kept_size (argsort losses).

(** [SquaredLoss.__call__] *)
Definition SquaredLoss_call (self : Loss) (X : matrix) (w y : list Q)
  : result (Q * list Q) :=
  let kept_size := kept_size_of self X in
  Xw <- dot X w ;;
  residuals <- sub Xw y ;;
  let losses := square residuals in
  let kept_indices := kept_indices_of kept_size losses in
  kept_losses <- take losses kept_indices ;;
  loss <- div_int (sum kept_losses) kept_size ;;
  scale <- div_int 2 kept_size ;;
  Xk <- take_rows X kept_indices ;;
  rk <- take residuals kept_indices ;;
  g <- dot (transpose Xk) rk ;;
  Ok (loss, map (Qmult scale) g).

End SquaredLoss.

(** ** preprocessor.py *)

Definition sample : Type := (Q * Q)%type.

(** [zip(x, y)]: stops at the end of the shorter array. *)
Definition zip (x y : list Q) : list sample := List.combine x y.

(** [Preprocessor.__call__] of the abstract base class. *)
Definition Preprocessor_call (x y : list Q) : result (list Q * list Q) :=
  Raise NotImplementedError.

(** [NullPreprocessor.__call__] *)
Definition NullPreprocessor_call (x y : list Q) : result (list Q * list Q) :=
  Ok (x, y).

(** *** KernelPreprocessor *)

(** The constructor takes a number or a pair for [kernel_size] and
    [strides]. *)
Inductive size_arg : Type :=
| Scalar (v : Q)
| Pair (a b : Q).

(** The instance attributes; [threshold_size] exists only while
    [__call__] runs. *)
Record KernelPreprocessor : Type := {
  kernel_size : Q * Q;
  strides : Q * Q;
  threshold : Q;
  threshold_size : option Z
}.

Definition broadcast (a : size_arg) : Q * Q :=
  match a with
  | Pair a0 a1 => (a0, a1)   (* [a[0:2]] *)
  | Scalar v => (v, v)       (* [TypeError]: not subscriptable *)
  end.

(** [KernelPreprocessor.__init__] *)
Definition KernelPreprocessor_init (kernel_size strides : size_arg)
    (threshold : Q) : KernelPreprocessor :=
  {| kernel_size := broadcast kernel_size;
     strides := broadcast strides;
     threshold := threshold;
     threshold_size := None |}.

Definition set_threshold_size (self : KernelPreprocessor) (v : option Z)
  : KernelPreprocessor :=
  {| kernel_size := kernel_size self;
     strides := strides self;
     threshold := threshold self;
     threshold_size := v |}.

(** [a / b] on exact rationals, read by [ceil] or [int].  A zero divisor
    stands for the [nan] (for [0 / 0]) or the infinity of numpy, and the
    conversion to an integer that follows raises [ValueError] or
    [OverflowError].  The quotient of the program is rounded, see
    [windows_binary64]. *)
Definition quotient (a b : Q) : result Q :=
  if Qeq_bool b 0 then
    if Qeq_bool a 0 then Raise ValueError else Raise OverflowError
  else Ok (a / b).

(** The dictionary [kernels]: keys in insertion order, each with the list
    of its samples. *)
Definition kernels_dict : Type := list ((Z * Z) * list sample).

Definition key_eqb (k k' : Z * Z) : bool :=
  (fst k =? fst k')%Z && (snd k =? snd k')%Z.

(** [try: kernels[key].append(s)  except KeyError: kernels[key] = [s]] *)
Fixpoint dict_append (key : Z * Z) (s : sample) (kernels : kernels_dict)
  : kernels_dict :=
  match kernels with
  | [] => [(key, [s])]
  | (k, members) :: rest =>
      if key_eqb key k then (k, members ++ [s]) :: rest
      else (k, members) :: dict_append key s rest
  end.

(** The window indices of one sample: the four bounds, then the keys in the
    order the two nested [for] loops visit them.  On exact rationals; the
    bounds that the program computes are those of [windows_binary64], and
    this reading is used for statements that hold whatever windows the
    first loop fills. *)
Definition windows (self : KernelPreprocessor) (x y : list Q) (s : sample)
  : result (list (Z * Z)) :=
  let '(xi, yi) := s in
  xmin <- min x ;;
  qx_low <- quotient (xi - xmin) (fst (strides self)) ;;
  let ix_low := ceil qx_low in
  qx_high <- quotient (xi - (xmin - fst (kernel_size self)))
                      (fst (strides self)) ;;
  let ix_high := int qx_high in
  ymin <- min y ;;
  qy_low <- quotient (yi - ymin) (snd (strides self)) ;;
  let iy_low := ceil qy_low in
  qy_high <- quotient (yi - (ymin - snd (kernel_size self)))
                      (snd (strides self)) ;;
  let iy_high := int qy_high in
  Ok (flat_map (fun ix => map (fun iy => (ix, iy))
                              (range iy_low (iy_high + 1)))
               (range ix_low (ix_high + 1))).

(** The first loop of [__call__], over [zip(x, y)]. *)
Fixpoint fill (self : KernelPreprocessor) (x y : list Q)
    (samples : list sample) (kernels : kernels_dict) : result kernels_dict :=
  match samples with
  | [] => Ok kernels
  | s :: rest =>
      keys <- windows self x y s ;;
      fill self x y rest
           (fold_left (fun d key => dict_append key s d) keys kernels)
  end.

(** The abstract method [combine]: a sample, or [None]. *)
Class CombineStrategy : Type :=
  combine : KernelPreprocessor -> list sample -> result (option sample).

(** [KernelPreprocessor.combine] *)
Definition KernelPreprocessor_combine : CombineStrategy :=
  fun _ _ => Raise NotImplementedError.

(** [MeanKernelPreprocessor.combine] *)
Definition MeanKernelPreprocessor_combine : CombineStrategy :=
  fun self samples =>
    match threshold_size self with
    | None => Raise AttributeError
    | Some threshold_size =>
        if (len samples <? threshold_size)%Z then Ok None
        else
          let sums :=
            fold_left (fun acc s => (fst acc + fst s, snd acc + snd s))
                      samples (0, 0) in
          mean_x <- div_int (fst sums) (len samples) ;;
          mean_y <- div_int (snd sums) (len samples) ;;
          Ok (Some (mean_x, mean_y))
    end.

Section KernelPreprocessor.

Context {C : CombineStrategy}.

(** The second loop of [__call__], over the keys of [kernels].  Unpacking
    [None] raises the [TypeError] that the loop catches to skip the key. *)
Fixpoint emit (self : KernelPreprocessor) (kernels : kernels_dict)
    (new_x new_y : list Q) : result (list Q * list Q) :=
  match kernels with
  | [] => Ok (new_x, new_y)
  | (_, members) :: rest =>
      r <- combine self members ;;
      match r with
      | None => emit self rest new_x new_y
      | Some (_x, _y) => emit self rest (new_x ++ [_x]) (new_y ++ [_y])
      end
  end.

(** [KernelPreprocessor.__call__]: the instance after the call and the two
    new arrays.  On exact rationals; with the window bounds and the
    threshold size as the program computes them the call is
    [KernelPreprocessor_call_binary64]. *)
Definition KernelPreprocessor_call (self : KernelPreprocessor)
    (x y : list Q) : result (KernelPreprocessor * (list Q * list Q)) :=
  kernels <- fill self x y (zip x y) [] ;;
  let self1 :=
    set_threshold_size self
      (Some (ceil (inject_Z (len x) * threshold self))) in
  out <- emit self1 kernels [] [] ;;
  Ok (set_threshold_size self1 None, out).

End KernelPreprocessor.

(** *** ClusteringPreprocessor *)

Record ClusteringPreprocessor : Type := {
  mode : string;
  eps : Q;
  min_samples : Z
}.

(** [ClusteringPreprocessor.__init__] *)
Definition ClusteringPreprocessor_init (mode : string) (eps : Q)
    (min_samples : Z) : ClusteringPreprocessor :=
  {| mode := mode; eps := eps; min_samples := min_samples |}.

(** The clustering capability [DBSCAN(eps, min_samples).fit(X).labels_]:
    one label per row of [X], [-1] for noise; it may raise. *)
Class Labeler : Type :=
  fit_labels : Q -> Z -> list sample -> result (list Z).

(** [np.c_[x, y]]: the two arrays as columns. *)
Definition c_ (x y : list Q) : result (list sample) :=
  if Nat.eqb (length x) (length y) then Ok (zip x y) else Raise ValueError.

(** [np.where(labels != v)]: the positions, ascending. *)
Definition where_ne (labels : list Z) (v : Z) : list nat :=
  filter (fun i => negb (nth i labels v =? v)%Z) (seq 0 (length labels)).

(** [np.delete(a, index)]: an index past the end raises [IndexError]. *)
Definition delete (a : list Q) (index : list nat) : result (list Q) :=
  if forallb (fun i => Nat.ltb i (length a)) index then
    Ok (map snd
            (filter (fun p => negb (existsb (Nat.eqb (fst p)) index))
                    (List.combine (seq 0 (length a)) a)))
  else Raise IndexError.

Section ClusteringPreprocessor.

Context {L : Labeler}.

(** [ClusteringPreprocessor.__call__]; [None] is Python's [None], returned
    when the function body ends without a [return]. *)
Definition ClusteringPreprocessor_call (self : ClusteringPreprocessor)
    (x y : list Q) : result (option (list Q * list Q)) :=
  if String.eqb (mode self) "DBSCAN" then
    X <- c_ x y ;;
    labels <- fit_labels (eps self) (min_samples self) X ;;
    let index := where_ne labels (-1) in
    new_x <- delete x index ;;
    new_y <- delete y index ;;
    Ok (Some (new_x, new_y))
  else Ok None.

End ClusteringPreprocessor.

(** * Binary64 evaluation of the integer-valued steps

    The definitions above compute with exact rationals.  Where the program
    turns a floating-point number into an integer (the kept size of line
    21 of loss.py, the window bounds of lines 53 to 56 and the threshold
    size of line 65 of preprocessor.py) the result can differ from the
    exact one, so these steps are also given as the program evaluates
    them, on binary64 numbers ([float], Rocq's primitive floats). *)

Module Binary64.

(** The number that a finite binary64 value stands for (0 for the
    others). *)
Definition value_of_spec (f : spec_float) : Q :=
  match f with
  | S754_finite s m e =>
      let v := if (0 <=? e)%Z then inject_Z (Zpos m * 2 ^ e)
               else Qmake (Zpos m) (Pos.pow 2 (Z.to_pos (- e))) in
      if s then - v else v
  | _ => 0
  end.

Definition value (f : float) : Q := value_of_spec (Prim2SF f).

(** A Python [int] (here a length, below 2^53) as a float. *)
Definition of_int (n : Z) : float := PrimFloat.of_uint63 (Uint63.of_Z n).

(** [math.ceil(f)]: [ValueError] on a NaN, [OverflowError] on an
    infinity. *)
Definition ceil (f : float) : result Z :=
  match Prim2SF f with
  | S754_nan => Raise ValueError
  | S754_infinity _ => Raise OverflowError
  | sf => Ok (Qceiling (value_of_spec sf))
  end.

(** [int(f)]: truncation toward zero, with the same two errors. *)
Definition int (f : float) : result Z :=
  match Prim2SF f with
  | S754_nan => Raise ValueError
  | S754_infinity _ => Raise OverflowError
  | sf => Ok (Z.quot (Qnum (value_of_spec sf)) (Zpos (Qden (value_of_spec sf))))
  end.

(** [a.min()]: a NaN in the array is returned. *)
Definition min (a : list float) : result float :=
  match a with
  | [] => Raise ValueError
  | a0 :: a' =>
      Ok (fold_left
            (fun m v => if PrimFloat.is_nan m then m
                        else if PrimFloat.is_nan v then v
                        else if PrimFloat.ltb v m then v else m)
            a' a0)
  end.

End Binary64.

(** ** loss.py *)

(** Line 21 as the program evaluates it, for [n = X.shape[0]]. *)
Definition kept_size_binary64 (n : Z) (c : float) : result Z :=
  Binary64.ceil (PrimFloat.mul (Binary64.of_int n) (PrimFloat.sub 1 c)).

Section SquaredLossBinary64.

Context {A : ArgSort}.

(** Lines 22 to 25 of [SquaredLoss.__call__], for a given [kept_size]. *)
Definition SquaredLoss_call_from (kept_size : Z) (X : matrix) (w y : list Q)
  : result (Q * list Q) :=
  Xw <- dot X w ;;
  residuals <- sub Xw y ;;
  let losses := square residuals in
  let kept_indices := kept_indices_of kept_size losses in
  kept_losses <- take losses kept_indices ;;
  loss <- div_int (sum kept_losses) kept_size ;;
  scale <- div_int 2 kept_size ;;
  Xk <- take_rows X kept_indices ;;
  rk <- take residuals kept_indices ;;
  g <- dot (transpose Xk) rk ;;
  Ok (loss, map (Qmult scale) g).

(** [SquaredLoss.__call__] with the kept size of line 21 in binary64 and
    the numbers of lines 22 to 25 exact. *)
Definition SquaredLoss_call_binary64 (contamination_proportion : float)
    (X : matrix) (w y : list Q) : result (Q * list Q) :=
  kept_size <- kept_size_binary64 (shape0 X) contamination_proportion ;;
  SquaredLoss_call_from kept_size X w y.

End SquaredLossBinary64.

(** ** numpy's default sort

    [np.argsort] with the default kind runs numpy's introsort
    ([aquicksort] of npysort/quicksort.cpp): segments of more than 17
    positions are partitioned around the median of their first, middle and
    last entry, the others are sorted by insertion.  The switch to heapsort
    after [2 * floor(log2 n)] nested partitions is not modelled: [None]. *)

Section Aquicksort.

Variable v : list Q.

Definition key_at (tosort : list nat) (p : nat) : Q :=
  nth (nth p tosort 0%nat) v 0.

Definition less (a b : Q) : bool := negb (Qle_bool b a).

Fixpoint set_nth (p : nat) (i : nat) (tosort : list nat) : list nat :=
  match tosort, p with
  | [], _ => []
  | _ :: rest, O => i :: rest
  | j :: rest, S p' => j :: set_nth p' i rest
  end.

(** [INTP_SWAP(tosort[p], tosort[q])] *)
Definition swap (tosort : list nat) (p q : nat) : list nat :=
  set_nth q (nth p tosort 0%nat) (set_nth p (nth q tosort 0%nat) tosort).

(** [do { ++pi; } while (v[*pi] < vp);] *)
Fixpoint scan_up (fuel : nat) (tosort : list nat) (vp : Q) (pi : nat) : nat :=
  match fuel with
  | O => S pi
  | S fuel' =>
      if less (key_at tosort (S pi)) vp
      then scan_up fuel' tosort vp (S pi)
      else S pi
  end.

(** [do { --pj; } while (vp < v[*pj]);] *)
Fixpoint scan_down (fuel : nat) (tosort : list nat) (vp : Q) (pj : nat)
  : nat :=
  match fuel with
  | O => Nat.pred pj
  | S fuel' =>
      if less vp (key_at tosort (Nat.pred pj))
      then scan_down fuel' tosort vp (Nat.pred pj)
      else Nat.pred pj
  end.

(** The [for (;;)] loop of the partition. *)
Fixpoint partition_loop (fuel : nat) (tosort : list nat) (vp : Q)
    (pi pj : nat) : list nat * nat :=
  match fuel with
  | O => (tosort, pi)
  | S fuel' =>
      let pi := scan_up (length tosort) tosort vp pi in
      let pj := scan_down (length tosort) tosort vp pj in
      if (pj <=? pi)%nat then (tosort, pi)
      else partition_loop fuel' (swap tosort pi pj) vp pi pj
  end.

(** One partition of the positions [pl .. pr]: the array afterwards and
    the position of the pivot. *)
Definition partition (tosort : list nat) (pl pr : nat) : list nat * nat :=
  let pm := (pl + (pr - pl) / 2)%nat in
  let t1 := if less (key_at tosort pm) (key_at tosort pl)
            then swap tosort pm pl else tosort in
  let t2 := if less (key_at t1 pr) (key_at t1 pm)
            then swap t1 pr pm else t1 in
  let t3 := if less (key_at t2 pm) (key_at t2 pl)
            then swap t2 pm pl else t2 in
  let vp := key_at t3 pm in
  let t4 := swap t3 pm (pr - 1) in
  let r := partition_loop (length t4) t4 vp pl (pr - 1) in
  (swap (fst r) (snd r) (pr - 1), snd r).

(** The inner [while] of the insertion sort, for the index [vi] taken
    from position [pj]. *)
Fixpoint insert_down (fuel : nat) (tosort : list nat) (vi : nat)
    (pj pl : nat) : list nat :=
  match fuel with
  | O => set_nth pj vi tosort
  | S fuel' =>
      if (pl <? pj)%nat && less (nth vi v 0) (key_at tosort (pj - 1))
      then insert_down fuel'
             (set_nth pj (nth (pj - 1) tosort 0%nat) tosort) vi (pj - 1) pl
      else set_nth pj vi tosort
  end.

(** The insertion sort of the positions [pl .. pr]. *)
Definition insertion (tosort : list nat) (pl pr : nat) : list nat :=
  fold_left
    (fun t pi => insert_down (length t) t (nth pi t 0%nat) pi pl)
    (seq (S pl) (pr - pl)) tosort.

Fixpoint sort_segment (depth : nat) (tosort : list nat) (pl pr : nat)
  : option (list nat) :=
  if (pr - pl <=? 16)%nat then Some (insertion tosort pl pr)
  else
    match depth with
    | O => None
    | S depth' =>
        let r := partition tosort pl pr in
        match sort_segment depth' (fst r) pl (snd r - 1) with
        | None => None
        | Some t => sort_segment depth' t (snd r + 1) pr
        end
    end.

End Aquicksort.

Definition aquicksort (a : list Q) : option (list nat) :=
  sort_segment a (2 * Nat.log2 (length a)) (seq 0 (length a))
               0 (length a - 1).

(** The sort that the program runs, in numpy's scalar implementation (a
    build that dispatches to a vectorised sort may order equal keys in
    another way); where the model of [aquicksort] stops, the indices are
    left in their original order. *)
Definition numpy_argsort : ArgSort :=
  fun a => match aquicksort a with Some t => t | None => seq 0 (length a) end.

(** ** preprocessor.py *)

(** The configuration of a [KernelPreprocessor] as binary64 numbers. *)
Record KernelPreprocessor64 : Type := {
  kernel_size64 : float * float;
  strides64 : float * float;
  threshold64 : float
}.

Definition sample64 : Type := (float * float)%type.

(** The exact value of a sample; the dictionary holds these. *)
Definition exact_sample (s : sample64) : sample :=
  (Binary64.value (fst s), Binary64.value (snd s)).

Definition exact_config (self : KernelPreprocessor64) : KernelPreprocessor :=
  {| kernel_size := (Binary64.value (fst (kernel_size64 self)),
                     Binary64.value (snd (kernel_size64 self)));
     strides := (Binary64.value (fst (strides64 self)),
                 Binary64.value (snd (strides64 self)));
     threshold := Binary64.value (threshold64 self);
     threshold_size := None |}.

(** Lines 53 to 58 as the program evaluates them. *)
Definition windows_binary64 (self : KernelPreprocessor64)
    (x y : list float) (s : sample64) : result (list (Z * Z)) :=
  let '(xi, yi) := s in
  xmin <- Binary64.min x ;;
  ix_low <- Binary64.ceil
              (PrimFloat.div (PrimFloat.sub xi xmin) (fst (strides64 self))) ;;
  ix_high <- Binary64.int
               (PrimFloat.div
                  (PrimFloat.sub xi
                     (PrimFloat.sub xmin (fst (kernel_size64 self))))
                  (fst (strides64 self))) ;;
  ymin <- Binary64.min y ;;
  iy_low <- Binary64.ceil
              (PrimFloat.div (PrimFloat.sub yi ymin) (snd (strides64 self))) ;;
  iy_high <- Binary64.int
               (PrimFloat.div
                  (PrimFloat.sub yi
                     (PrimFloat.sub ymin (snd (kernel_size64 self))))
                  (snd (strides64 self))) ;;
  Ok (flat_map (fun ix => map (fun iy => (ix, iy))
                              (range iy_low (iy_high + 1)))
               (range ix_low (ix_high + 1))).

(** The first loop of [__call__] with these windows. *)
Fixpoint fill_binary64 (self : KernelPreprocessor64) (x y : list float)
    (samples : list sample64) (kernels : kernels_dict) : result kernels_dict :=
  match samples with
  | [] => Ok kernels
  | s :: rest =>
      keys <- windows_binary64 self x y s ;;
      fill_binary64 self x y rest
        (fold_left (fun d key => dict_append key (exact_sample s) d)
                   keys kernels)
  end.

(** Line 65 as the program evaluates it, for [n = x.shape[0]]. *)
Definition threshold_size_binary64 (n : Z) (threshold : float) : result Z :=
  Binary64.ceil (PrimFloat.mul (Binary64.of_int n) threshold).

(** [KernelPreprocessor.__call__] with the windows and the threshold size
    in binary64 and the combined samples exact. *)
Definition KernelPreprocessor_call_binary64 {C : CombineStrategy}
    (self : KernelPreprocessor64) (x y : list float)
  : result (list Q * list Q) :=
  kernels <- fill_binary64 self x y (List.combine x y) [] ;;
  threshold_size <- threshold_size_binary64 (len x) (threshold64 self) ;;
  emit (set_threshold_size (exact_config self) (Some threshold_size))
       kernels [] [].

(** The windows of a sample, none when their computation raises. *)
Definition windows_of (self : KernelPreprocessor64) (x y : list float)
    (s : sample64) : list (Z * Z) :=
  match windows_binary64 self x y s with
  | Ok keys => keys
  | Raise _ => []
  end.

(** * Specification-side notions *)

(** The sum of a list of numbers. *)
Definition Qsum (l : list Q) : Q := fold_right Qplus 0 l.

(** [X[i][j]] *)
Definition entry (X : matrix) (i j : nat) : Q := nth j (nth i (rows X) []) 0.

(** The residual [(X w - y)_i] and its square. *)
Definition residual (X : matrix) (w y : list Q) (i : nat) : Q :=
  Qsum (map (fun j => entry X i j * nth j w 0) (seq 0 (ncols X))) - nth i y 0.

Definition squared_residual (X : matrix) (w y : list Q) (i : nat) : Q :=
  residual X w y i * residual X w y i.


(** Ordinary least squares on [n] samples: the mean squared error
    [(1/n) * sum_i r_i^2] and its gradient [(2/n) * X^T r]. *)
Definition mean_squared_error_result (X : matrix) (w y : list Q)
    (r : result (Q * list Q)) : Prop :=
  let n := length (rows X) in
  exists (loss : Q) (gradient : list Q),
    r = Ok (loss, gradient) /\
    loss == (1 / inject_Z (Z.of_nat n))
            * Qsum (map (squared_residual X w y) (seq 0 n)) /\
    length gradient = ncols X /\
    (forall j, (j < ncols X)%nat ->
       nth j gradient 0 ==
       (2 / inject_Z (Z.of_nat n))
       * Qsum (map (fun i => entry X i j * residual X w y i) (seq 0 n))).

(** The order on samples by squared residual, ties broken by the original
    index, and what it means for a set of kept indices to be a prefix of
    that order. *)
Definition lex_before (losses : list Q) (i j : nat) : Prop :=
  nth i losses 0 < nth j losses 0 \/
  (nth i losses 0 == nth j losses 0 /\ (i < j)%nat).

Definition stable_prefix (losses : list Q) (kept : list nat) : Prop :=
  forall i j, In i kept -> (j < length losses)%nat -> ~ In j kept ->
              lex_before losses i j.

(** The same without the tie-break: no kept sample has a larger squared
    residual than a sample left out. *)
Definition smallest_prefix (losses : list Q) (kept : list nat) : Prop :=
  forall i j, In i kept -> (j < length losses)%nat -> ~ In j kept ->
              nth i losses 0 <= nth j losses 0.

(** The integers of [range(ceil(lo), int(hi) + 1)], in terms of the two
    numbers: those that are at least [lo] and at most [hi]; for a negative
    [hi], which [int] rounds up, those below [hi + 1]. *)
Definition from_ceil_to_int (lo hi : float) (i : Z) : Prop :=
  Binary64.value lo <= inject_Z i /\
  (0 <= Binary64.value hi /\ inject_Z i <= Binary64.value hi \/
   Binary64.value hi < 0 /\ inject_Z i < Binary64.value hi + 1).

(** The window [key] holds the sample [s]: on each axis the index lies
    between the rounded quotient of the distance to the minimum by the
    stride, and the rounded quotient of that distance plus the kernel
    size by the stride. *)
Definition in_window (self : KernelPreprocessor64) (x y : list float)
    (s : sample64) (key : Z * Z) : Prop :=
  exists xmin ymin : float,
    Binary64.min x = Ok xmin /\
    Binary64.min y = Ok ymin /\
    from_ceil_to_int
      (PrimFloat.div (PrimFloat.sub (fst s) xmin) (fst (strides64 self)))
      (PrimFloat.div
         (PrimFloat.sub (fst s)
            (PrimFloat.sub xmin (fst (kernel_size64 self))))
         (fst (strides64 self)))
      (fst key) /\
    from_ceil_to_int
      (PrimFloat.div (PrimFloat.sub (snd s) ymin) (snd (strides64 self)))
      (PrimFloat.div
         (PrimFloat.sub (snd s)
            (PrimFloat.sub ymin (snd (kernel_size64 self))))
         (snd (strides64 self)))
      (snd key).

(** * Auxiliary definitions for the proofs and examples *)

(** ** Residuals on arrays of matching shapes *)

(** The residual vector as the first two statements of [__call__] compute
    it on arrays of matching shapes. *)
Definition computed_residuals (X : matrix) (w y : list Q) : list Q :=
  map (fun p => fst p - snd p)
      (List.combine (map (fun r => inner r w) (rows X)) y).

(** ** The density filter *)

(** The samples that the specification keeps: those labelled [-1], in
    their original order. *)
Fixpoint noise_only (a : list Q) (labels : list Z) : list Q :=
  match a, labels with
  | ai :: a', l :: labels' =>
      if (l =? -1)%Z then ai :: noise_only a' labels'
      else noise_only a' labels'
  | _, _ => []
  end.

(** ** The dictionary of windows *)

(** [kernels[key]], if the key is present. *)
Fixpoint dict_get (key : Z * Z) (kernels : kernels_dict)
  : option (list sample) :=
  match kernels with
  | [] => None
  | (k, members) :: rest =>
      if key_eqb key k then Some members else dict_get key rest
  end.

(** The value of a key after one [append]. *)
Definition appended (old : option (list sample)) (s : sample) : list sample :=
  match old with
  | Some members => members ++ [s]
  | None => [s]
  end.

(** The samples of a window, given the window indices of every sample: in
    input order. *)
Definition members (assign : sample -> list (Z * Z)) (samples : list sample)
    (key : Z * Z) : list sample :=
  filter (fun s => existsb (key_eqb key) (assign s)) samples.



(** ** Window indices *)

(** The pairs of the two nested loops. *)
Definition cross (ixs iys : list Z) : list (Z * Z) :=
  flat_map (fun ix => map (fun iy => (ix, iy)) iys) ixs.



(** The same for the binary64 first loop: the exact values of the samples
    that [assign] puts in a window, in input order; a dictionary that
    groups the samples so; and the loop invariant. *)
Definition members_of (assign : sample64 -> list (Z * Z))
    (samples : list sample64) (key : Z * Z) : list sample :=
  map exact_sample
      (filter (fun s => existsb (key_eqb key) (assign s)) samples).

Definition groups_binary64 (assign : sample64 -> list (Z * Z))
    (samples : list sample64) (kernels : kernels_dict) : Prop :=
  NoDup (map fst kernels) /\
  (forall key ms, In (key, ms) kernels ->
                  ms <> [] /\ ms = members_of assign samples key) /\
  (forall key, members_of assign samples key <> [] ->
               In key (map fst kernels)).

Definition filled_binary64 (assign : sample64 -> list (Z * Z))
    (done : list sample64) (d : kernels_dict) : Prop :=
  NoDup (map fst d) /\
  forall key, dict_get key d =
              match members_of assign done key with
              | [] => None
              | ms => Some ms
              end.

(** ** Binary64 numbers *)

(** A zero or a finite number: neither an infinity nor a NaN. *)
Definition is_number (f : spec_float) : Prop :=
  match f with
  | S754_zero _ | S754_finite _ _ _ => True
  | _ => False
  end.

(** What [ceil(d / 0)] raises: [0 / 0] and [nan / 0] are NaN, every other
    quotient by zero is an infinity. *)
Definition zero_division_error (d : float) : exn :=
  match Prim2SF d with
  | S754_zero _ | S754_nan => ValueError
  | _ => OverflowError
  end.

(** ** Means *)

(** The arithmetic mean of a list of samples, coordinate by coordinate. *)
Definition is_mean (out : sample) (ms : list sample) : Prop :=
  fst out == Qsum (map fst ms) / inject_Z (len ms) /\
  snd out == Qsum (map snd ms) / inject_Z (len ms).

(** The pair that [MeanKernelPreprocessor.combine] computes. *)
Definition mean_of (ms : list sample) : sample :=
  let sums :=
    fold_left (fun acc s => (fst acc + fst s, snd acc + snd s)) ms (0, 0) in
  (fst sums / inject_Z (len ms), snd sums / inject_Z (len ms)).

(** ** Example data *)

(** The data of the specification's outlier example: five samples on the
    line [y = x], the fourth moved to 100. *)
Definition example_X : matrix := Matrix 1 [[1]; [2]; [3]; [4]; [5]].

Definition example_y : list Q := [1; 2; 3; 100; 5].

Definition example_loss : Loss := {| contamination_proportion := 1 # 5 |}.

(** A labelling with one cluster and two noise points. *)
Definition example_labeler : Labeler :=
  fun _ _ X => Ok (map (fun s => if Qle_bool (fst s) 3 then 0%Z else (-1)%Z) X).

(** Labellings that put every sample in noise, every sample in one
    cluster, and a clustering that raises. *)
Definition all_noise_labeler : Labeler :=
  fun _ _ X => Ok (map (fun _ => (-1)%Z) X).

Definition one_cluster_labeler : Labeler :=
  fun _ _ X => Ok (map (fun _ => 0%Z) X).

Definition failing_labeler : Labeler :=
  fun _ _ _ => Raise ValueError.

(** Eighteen samples with one squared residual: [X = [[0], ..., [17]]],
    [w = [0]], [y = [1, ..., 1]]. *)
Definition ties_X : matrix :=
  Matrix 1 (map (fun i => [inject_Z (Z.of_nat i)]) (seq 0 18)).

Definition ties_y : list Q := repeat 1 18.

(** Twenty-five samples with the residuals [-1, ..., -25]:
    [X = [[1], ..., [1]]], [w = [0]], [y = [1, ..., 25]]. *)
Definition ramp_X : matrix := Matrix 1 (repeat [1] 25).

Definition ramp_y : list Q :=
  map (fun i => inject_Z (Z.of_nat i)) (seq 1 25).

(** Binary64 configurations with kernel size equal to the stride. *)
Definition unit_tiling : KernelPreprocessor64 :=
  {| kernel_size64 := (1, 1)%float;
     strides64 := (1, 1)%float;
     threshold64 := 0%float |}.

Definition tenth_tiling : KernelPreprocessor64 :=
  {| kernel_size64 := (0x1.999999999999ap-4, 0x1.999999999999ap-4)%float;
     strides64 := (0x1.999999999999ap-4, 0x1.999999999999ap-4)%float;
     threshold64 := 0%float |}.

Definition fiftieth_tiling : KernelPreprocessor64 :=
  {| kernel_size64 := (0x1.47ae147ae147bp-6, 0x1.47ae147ae147bp-6)%float;
     strides64 := (0x1.47ae147ae147bp-6, 0x1.47ae147ae147bp-6)%float;
     threshold64 := 0%float |}.

(** Unit windows one unit apart and a threshold of 0.28, on 25 samples:
    one at [x = 0], six at [x = 0.5] and eighteen at [x = 1.5], all at
    [y = 0]. *)
Definition gate_example : KernelPreprocessor64 :=
  {| kernel_size64 := (1, 1)%float;
     strides64 := (1, 1)%float;
     threshold64 := 0x1.1eb851eb851ecp-2%float |}.

Definition gate_x : list float :=
  (0 :: repeat 0x1p-1 6 ++ repeat 0x1.8p+0 18)%float.

Definition gate_y : list float := repeat 0%float 25.

(** Unit windows with a stride of zero along x. *)
Definition zero_stride_example : KernelPreprocessor64 :=
  {| kernel_size64 := (1, 1)%float;
     strides64 := (0, 1)%float;
     threshold64 := 0%float |}.

(** Unit windows one unit apart on both axes, and no threshold. *)
Definition tiling_example : KernelPreprocessor :=
  KernelPreprocessor_init (Scalar 1) (Scalar 1) 0.

(** * General lemmas *)

Lemma Qsum_app (l1 l2 : list Q) : Qsum (l1 ++ l2) == Qsum l1 + Qsum l2.
Proof.
  induction l1 as [|a l1 IH]; simpl.
  - ring.
  - rewrite IH. ring.
Qed.

Lemma fold_left_Qplus (l : list Q) (a : Q) :
  fold_left Qplus l a == a + Qsum l.
Proof.
  revert a. induction l as [|b l IH]; intros a; simpl.
  - ring.
  - rewrite IH. ring.
Qed.

Lemma sum_Qsum (l : list Q) : sum l == Qsum l.
Proof. unfold sum. rewrite fold_left_Qplus. ring. Qed.

Lemma Qsum_map_ext {B : Type} (f g : B -> Q) (l : list B) :
  (forall b, In b l -> f b == g b) -> Qsum (map f l) == Qsum (map g l).
Proof.
  induction l as [|b l IH]; intros H; simpl.
  - reflexivity.
  - rewrite (H b (or_introl eq_refl)), IH.
    + reflexivity.
    + intros c Hc. apply H. now right.
Qed.

Lemma Qsum_perm (l1 l2 : list Q) : Permutation l1 l2 -> Qsum l1 == Qsum l2.
Proof.
  induction 1; simpl.
  - reflexivity.
  - now rewrite IHPermutation.
  - ring.
  - now rewrite IHPermutation1.
Qed.

Lemma take_ok {B : Type} (d : B) (a : list B) (idx : list nat) :
  Forall (fun i => (i < length a)%nat) idx ->
  take a idx = Ok (map (fun i => nth i a d) idx).
Proof.
  induction 1 as [|i idx Hi _ IH]; simpl.
  - reflexivity.
  - destruct (nth_error a i) as [v|] eqn:E.
    + rewrite IH. simpl. now rewrite (nth_error_nth a i d E).
    + apply nth_error_None in E. lia.
Qed.

Lemma inner_map (f g : nat -> Q) (K : list nat) :
  inner (map f K) (map g K) == Qsum (map (fun i => f i * g i) K).
Proof.
  induction K as [|i K IH]; simpl.
  - reflexivity.
  - now rewrite IH.
Qed.

Lemma inner_nth (r w : list Q) :
  length r = length w ->
  inner r w == Qsum (map (fun j => nth j r 0 * nth j w 0) (seq 0 (length r))).
Proof.
  revert w. induction r as [|a r IH]; intros [|b w] H; simpl in *;
    try discriminate; try reflexivity.
  rewrite <- seq_shift, map_map. rewrite IH by lia. reflexivity.
Qed.

(** ** Sorted index lists *)

Lemma sorted_prefix_below {B : Type} (R : B -> B -> Prop) (l : list B) :
  StronglySorted R l ->
  forall k i j, In i (firstn k l) -> In j (skipn k l) -> R i j.
Proof.
  induction 1 as [|a l Hs IH Ha]; intros k i j Hi Hj.
  - rewrite firstn_nil in Hi. contradiction.
  - destruct k as [|k]; simpl in *.
    + contradiction.
    + destruct Hi as [<-|Hi].
      * rewrite Forall_forall in Ha. apply Ha.
        rewrite <- (firstn_skipn k l). apply in_or_app. now right.
      * eauto.
Qed.

Lemma perm_seq_facts (l : list nat) (n : nat) :
  Permutation l (seq 0 n) ->
  NoDup l /\ length l = n /\ (forall i, In i l <-> (i < n)%nat).
Proof.
  intros P. split; [|split].
  - apply (Permutation_NoDup (Permutation_sym P)), seq_NoDup.
  - rewrite (Permutation_length P). apply length_seq.
  - intros i. split; intros H.
    + apply (Permutation_in _ P) in H. apply in_seq in H. lia.
    + apply (Permutation_in _ (Permutation_sym P)). apply in_seq. lia.
Qed.

Lemma NoDup_firstn {B : Type} (k : nat) (l : list B) :
  NoDup l -> NoDup (firstn k l).
Proof.
  intros H. rewrite <- (firstn_skipn k l) in H.
  now apply NoDup_app_remove_r in H.
Qed.

(** ** The two insertion sorts satisfy the [np.argsort] contract *)

Section InsertionArgsort.

Variable pass : Q -> Q -> bool.
Hypothesis pass_true : forall kj ki, pass kj ki = true -> kj <= ki.
Hypothesis pass_false : forall kj ki, pass kj ki = false -> ki <= kj.
Variable a : list Q.

Lemma insert_index_perm (i : nat) (l : list nat) :
  Permutation (insert_index pass a i l) (i :: l).
Proof.
  induction l as [|j l IH]; simpl.
  - reflexivity.
  - destruct (pass _ _).
    + rewrite IH. apply perm_swap.
    + reflexivity.
Qed.

Lemma insert_index_sorted (i : nat) (l : list nat) :
  StronglySorted (ascending a) l ->
  StronglySorted (ascending a) (insert_index pass a i l).
Proof.
  induction 1 as [|j l Hs IH Hj]; simpl.
  - repeat constructor.
  - destruct (pass (nth j a 0) (nth i a 0)) eqn:E.
    + constructor; [exact IH|].
      apply (Permutation_Forall (Permutation_sym (insert_index_perm i l))).
      constructor; [exact (pass_true _ _ E) | exact Hj].
    + apply pass_false in E.
      constructor; [now constructor|].
      constructor; [exact E|].
      apply (Forall_impl _ (P := ascending a j)); [|exact Hj].
      intros k Hk. unfold ascending in *. eapply Qle_trans; eassumption.
Qed.

Lemma insertion_fold_perm (l acc : list nat) :
  Permutation
    (fold_left (fun sorted i => insert_index pass a i sorted) l acc)
    (acc ++ l).
Proof.
  revert acc. induction l as [|i l IH]; intros acc; simpl.
  - now rewrite app_nil_r.
  - rewrite IH, insert_index_perm. apply Permutation_middle.
Qed.

Lemma insertion_fold_sorted (l acc : list nat) :
  StronglySorted (ascending a) acc ->
  StronglySorted (ascending a)
    (fold_left (fun sorted i => insert_index pass a i sorted) l acc).
Proof.
  revert acc. induction l as [|i l IH]; intros acc H; simpl.
  - exact H.
  - apply IH, insert_index_sorted, H.
Qed.

End InsertionArgsort.

Lemma insertion_argsort_laws (pass : Q -> Q -> bool) :
  (forall kj ki, pass kj ki = true -> kj <= ki) ->
  (forall kj ki, pass kj ki = false -> ki <= kj) ->
  ArgSortLaws (insertion_argsort pass).
Proof.
  intros Ht Hf. split; intros a; unfold argsort, insertion_argsort.
  - apply (insertion_fold_perm pass a (seq 0 (length a)) []).
  - apply insertion_fold_sorted; auto. constructor.
Qed.

#[export] Instance stable_argsort_laws : ArgSortLaws stable_argsort.
Proof.
  apply insertion_argsort_laws; intros kj ki H.
  - now apply Qle_bool_iff.
  - apply Qlt_le_weak, Qnot_le_lt. intros C.
    apply Qle_bool_iff in C. congruence.
Qed.

#[export] Instance reversing_argsort_laws : ArgSortLaws reversing_argsort.
Proof.
  apply insertion_argsort_laws; intros kj ki H.
  - apply negb_true_iff in H. apply Qlt_le_weak, Qnot_le_lt. intros C.
    apply Qle_bool_iff in C. congruence.
  - apply negb_false_iff in H. now apply Qle_bool_iff.
Qed.

(** * loss.py: the trimmed squared loss *)

(** [l[:k]] is a prefix of [l]. *)
Lemma slice_to_prefix {B : Type} (k : Z) (l : list B) :
  exists m, slice_to k l = firstn m l /\
            ((0 <= k)%Z -> m = Z.to_nat k).
Proof.
  unfold slice_to. destruct (0 <=? k)%Z eqn:E.
  - eexists. split; [reflexivity|]. reflexivity.
  - eexists. split; [reflexivity|]. intros H. apply Z.leb_gt in E. lia.
Qed.

Lemma slice_to_incl {B : Type} (k : Z) (l : list B) (b : B) :
  In b (slice_to k l) -> In b l.
Proof.
  destruct (slice_to_prefix k l) as (m & -> & _).
  intros H. rewrite <- (firstn_skipn m l). apply in_or_app. now left.
Qed.

Section Shapes.

Variables (X : matrix) (w y : list Q).
Hypothesis X_shape : well_shaped X.
Hypothesis w_shape : length w = ncols X.
Hypothesis y_shape : length y = length (rows X).

Lemma computed_residuals_length :
  length (computed_residuals X w y) = length (rows X).
Proof.
  unfold computed_residuals.
  rewrite length_map, length_combine, length_map. lia.
Qed.

Lemma residuals_ok :
  (Xw <- dot X w ;; sub Xw y) = Ok (computed_residuals X w y).
Proof.
  unfold dot. rewrite w_shape, Nat.eqb_refl. simpl.
  unfold sub. rewrite length_map, y_shape, Nat.eqb_refl. reflexivity.
Qed.

Lemma computed_residuals_nth (i : nat) :
  (i < length (rows X))%nat ->
  nth i (computed_residuals X w y) 0 == residual X w y i.
Proof.
  intros Hi. unfold computed_residuals, residual, entry.
  change 0 with ((fun p : Q * Q => fst p - snd p) (0, 0)) at 1.
  rewrite map_nth, combine_nth by (rewrite length_map; lia).
  simpl.
  change 0 with ((fun r => inner r w) []) at 1.
  rewrite map_nth.
  assert (Hr : length (nth i (rows X) []) = ncols X).
  { unfold well_shaped in X_shape. rewrite Forall_forall in X_shape.
    apply X_shape, nth_In, Hi. }
  rewrite inner_nth by lia. rewrite Hr. reflexivity.
Qed.

Lemma computed_losses_nth (i : nat) :
  (i < length (rows X))%nat ->
  nth i (square (computed_residuals X w y)) 0 == squared_residual X w y i.
Proof.
  intros Hi. unfold square, squared_residual.
  change 0 with ((fun r => r * r) 0) at 1.
  rewrite map_nth, computed_residuals_nth by exact Hi. reflexivity.
Qed.

Context {A : ArgSort} {AL : ArgSortLaws A}.

Lemma kept_in_range (k : Z) (i : nat) :
  In i (kept_indices_of k (square (computed_residuals X w y))) ->
  (i < length (rows X))%nat.
Proof.
  intros H. apply slice_to_incl in H.
  apply (perm_seq_facts _ _ (argsort_perm _)) in H.
  unfold square in H. now rewrite length_map, computed_residuals_length in H.
Qed.

(** [__call__] on arrays of matching shapes, up to the two divisions. *)
Lemma SquaredLoss_call_shapes (self : Loss) :
  SquaredLoss_call self X w y =
    let k := kept_size_of self X in
    let res := computed_residuals X w y in
    let kept := kept_indices_of k (square res) in
    loss <- div_int (sum (map (fun i => nth i (square res) 0) kept)) k ;;
    scale <- div_int 2 k ;;
    Ok (loss,
        map (Qmult scale)
            (map (fun j =>
                    inner (map (fun i => nth j (nth i (rows X) []) 0) kept)
                          (map (fun i => nth i res 0) kept))
                 (seq 0 (ncols X)))).
Proof.
  unfold SquaredLoss_call.
  pose proof residuals_ok as E. unfold bind in E.
  destruct (dot X w) as [Xw|e]; [|discriminate].
  unfold bind at 1 2. rewrite E. cbv zeta.
  set (K := kept_indices_of (kept_size_of self X)
                            (square (computed_residuals X w y))).
  assert (HK : forall i, In i K -> (i < length (rows X))%nat)
    by (intros i; apply kept_in_range).
  rewrite (take_ok 0).
  2:{ apply Forall_forall. intros i Hi. unfold square.
      rewrite length_map, computed_residuals_length. auto. }
  unfold bind at 1.
  destruct (div_int (sum _) _) as [loss|e]; [|reflexivity].
  unfold bind at 1 2.
  destruct (div_int 2 _) as [scale|e]; [|reflexivity].
  unfold take_rows. rewrite (take_ok []) by (apply Forall_forall; auto).
  unfold bind at 1 2.
  rewrite (take_ok 0).
  2:{ apply Forall_forall. intros i Hi.
      rewrite computed_residuals_length. auto. }
  unfold bind at 1. unfold dot, transpose. simpl.
  rewrite !length_map, Nat.eqb_refl. simpl.
  do 3 f_equal. rewrite map_map. apply map_ext. intros j.
  now rewrite map_map.
Qed.

End Shapes.

(** ** The kept size *)

Lemma kept_size_bounds (self : Loss) (X : matrix) :
  (1 <= length (rows X))%nat ->
  0 <= contamination_proportion self ->
  contamination_proportion self < 1 ->
  (1 <= kept_size_of self X <= shape0 X)%Z.
Proof.
  intros Hn H0 H1. unfold kept_size_of, ceil, shape0, len.
  set (n := Z.of_nat (length (rows X))).
  set (c := contamination_proportion self) in *.
  assert (Hn' : 1 <= inject_Z n).
  { change 1 with (inject_Z 1). rewrite <- Zle_Qle. lia. }
  split.
  - assert (Hpos : 0 < inject_Z n * (1 - c)).
    { apply Qmult_lt_0_compat.
      - eapply Qlt_le_trans; [|exact Hn']. reflexivity.
      - unfold Qminus. rewrite <- Qlt_minus_iff. exact H1. }
    pose proof (Qle_ceiling (inject_Z n * (1 - c))) as Hc.
    assert (Hlt : inject_Z 0 < inject_Z (Qceiling (inject_Z n * (1 - c))))
      by (eapply Qlt_le_trans; eassumption).
    rewrite <- Zlt_Qlt in Hlt. lia.
  - rewrite <- (Qceiling_Z n) at 2. apply Qceiling_resp_le.
    rewrite <- (Qmult_1_r (inject_Z n)) at 2.
    apply Qmult_le_l.
    + eapply Qlt_le_trans; [|exact Hn']. reflexivity.
    + rewrite <- (Qplus_0_r 1) at 2. unfold Qminus.
      apply Qplus_le_r. rewrite <- (Qopp_involutive 0) at 1.
      apply Qopp_le_compat. exact H0.
Qed.

Lemma kept_size_zero_contamination (self : Loss) (X : matrix) :
  contamination_proportion self == 0 ->
  kept_size_of self X = shape0 X.
Proof.
  intros H. unfold kept_size_of, ceil.
  rewrite <- (Qceiling_Z (shape0 X)) at 2.
  apply Qceiling_comp. rewrite H. ring.
Qed.

(** ** The kept indices *)

Lemma nth_map_seq {B : Type} (g : nat -> B) (d : nat) (dflt : B) (j : nat) :
  (j < d)%nat -> nth j (map g (seq 0 d)) dflt = g j.
Proof.
  intros H. rewrite (nth_indep _ dflt (g 0%nat)) by now rewrite length_map, length_seq.
  rewrite map_nth, seq_nth by exact H. reflexivity.
Qed.

Section KeptIndices.

Context {A : ArgSort} {AL : ArgSortLaws A}.

Variables (losses : list Q) (k : Z).

Lemma kept_indices_facts :
  NoDup (kept_indices_of k losses) /\
  (forall i, In i (kept_indices_of k losses) -> (i < length losses)%nat) /\
  ((0 <= k <= len losses)%Z ->
   Z.of_nat (length (kept_indices_of k losses)) = k) /\
  (forall i j,
     In i (kept_indices_of k losses) -> (j < length losses)%nat ->
     ~ In j (kept_indices_of k losses) ->
     nth i losses 0 <= nth j losses 0).
Proof.
  unfold kept_indices_of.
  destruct (perm_seq_facts _ _ (argsort_perm losses)) as (Hnd & Hlen & Hin).
  destruct (slice_to_prefix k (argsort losses)) as (m & -> & Hm).
  repeat split.
  - now apply NoDup_firstn.
  - intros i Hi. apply Hin. rewrite <- (firstn_skipn m (argsort losses)).
    apply in_or_app. now left.
  - intros Hk. rewrite length_firstn, Hlen. unfold len in Hk.
    rewrite (Hm (proj1 Hk)). lia.
  - intros i j Hi Hj Hnj.
    apply (sorted_prefix_below _ _ (argsort_sorted losses) m i j Hi).
    apply Hin in Hj. rewrite <- (firstn_skipn m (argsort losses)) in Hj.
    apply in_app_or in Hj. tauto.
Qed.

End KeptIndices.

Section TrimmedLoss.

Context {A : ArgSort} {AL : ArgSortLaws A}.

(** With a nonzero [kept_size], [__call__] returns the scaled sums over the
    kept indices. *)
Lemma SquaredLoss_call_on_kept (self : Loss) (X : matrix) (w y : list Q) :
  well_shaped X ->
  length w = ncols X ->
  length y = length (rows X) ->
  kept_size_of self X <> 0%Z ->
  let kept_size := kept_size_of self X in
  let kept :=
    kept_indices_of kept_size (square (computed_residuals X w y)) in
  exists (loss : Q) (gradient : list Q),
    SquaredLoss_call self X w y = Ok (loss, gradient) /\
    loss == (1 / inject_Z kept_size)
            * Qsum (map (squared_residual X w y) kept) /\
    length gradient = ncols X /\
    (forall j, (j < ncols X)%nat ->
       nth j gradient 0 ==
       (2 / inject_Z kept_size)
       * Qsum (map (fun i => entry X i j * residual X w y i) kept)).
Proof.
  intros HX Hw Hy Hk kept_size K.
  rewrite (SquaredLoss_call_shapes X w y Hw Hy). cbv zeta.
  fold kept_size. fold K.
  assert (Hin : forall i, In i K -> (i < length (rows X))%nat).
  { intros i Hi.
    apply (kept_indices_facts (square (computed_residuals X w y)) kept_size)
      in Hi.
    unfold square in Hi.
    now rewrite length_map, computed_residuals_length in Hi. }
  assert (Hk0 : ~ inject_Z kept_size == 0).
  { change 0 with (inject_Z 0). rewrite inject_Z_injective. exact Hk. }
  unfold div_int. destruct (Z.eqb_spec kept_size 0) as [E|_]; [contradiction|].
  simpl bind.
  eexists _, _. split; [reflexivity|].
  split.
  { rewrite sum_Qsum.
    rewrite (Qsum_map_ext _ (squared_residual X w y)).
    - field. exact Hk0.
    - intros i Hi. apply (computed_losses_nth X w y HX Hw Hy). auto. }
  split.
  { now rewrite !length_map, length_seq. }
  intros j Hj.
  rewrite (nth_indep _ 0 (Qmult (2 / inject_Z kept_size) 0))
    by now rewrite !length_map, length_seq.
  rewrite map_nth. apply Qmult_comp; [reflexivity|].
  rewrite (nth_map_seq _ _ _ _ Hj), inner_map.
  apply Qsum_map_ext. intros i Hi. unfold entry.
  apply Qmult_comp; [reflexivity|].
  apply (computed_residuals_nth X w y HX Hw Hy). auto.
Qed.

(** C3.  With a contamination proportion of zero, on [n >= 1] samples,
    [kept_size] is [n] and [SquaredLoss.__call__] returns the mean squared
    error [(1/n) * sum_i r_i^2] and its gradient [(2/n) * X^T r]. *)
Theorem SquaredLoss_call_zero_contamination
    (self : Loss) (X : matrix) (w y : list Q) :
  well_shaped X ->
  (1 <= length (rows X))%nat ->
  length w = ncols X ->
  length y = length (rows X) ->
  contamination_proportion self == 0 ->
  kept_size_of self X = Z.of_nat (length (rows X)) /\
  mean_squared_error_result X w y (SquaredLoss_call self X w y).
Proof.
  intros HX Hn Hw Hy H0.
  pose proof (kept_size_zero_contamination self X H0) as Hk.
  unfold shape0, len in Hk.
  split; [exact Hk|].
  destruct (SquaredLoss_call_on_kept self X w y HX Hw Hy)
    as (loss & gradient & Hcall & Hloss & Hlen & Hgrad).
  { rewrite Hk. lia. }
  rewrite Hk in Hloss, Hgrad.
  set (n := length (rows X)) in *.
  set (losses := square (computed_residuals X w y)) in *.
  assert (Hl : length losses = n).
  { unfold losses, square. now rewrite length_map, computed_residuals_length. }
  assert (HP : Permutation (kept_indices_of (Z.of_nat n) losses) (seq 0 n)).
  { unfold kept_indices_of, slice_to.
    destruct (Z.leb_spec 0 (Z.of_nat n)) as [_|C]; [|lia].
    rewrite Nat2Z.id, <- Hl.
    rewrite <- (proj1 (proj2 (perm_seq_facts _ _ (argsort_perm losses)))) at 1.
    rewrite firstn_all. apply argsort_perm. }
  exists loss, gradient. repeat split; auto.
  - rewrite Hloss. apply Qmult_comp; [reflexivity|].
    apply Qsum_perm, Permutation_map, HP.
  - intros j Hj. rewrite (Hgrad j Hj). apply Qmult_comp; [reflexivity|].
    apply Qsum_perm, Permutation_map, HP.
Qed.

(** C4, as the code has it.  For every [np.argsort] meeting its contract
    and every [kept_size] between 0 and the number of samples, the kept
    indices are [kept_size] distinct sample indices, and no kept sample has
    a larger squared residual than a sample left out.  The contract does
    not say which of several samples with one squared residual is kept. *)
Theorem kept_indices_smallest (losses : list Q) (kept_size : Z) :
  (0 <= kept_size <= len losses)%Z ->
  NoDup (kept_indices_of kept_size losses) /\
  Z.of_nat (length (kept_indices_of kept_size losses)) = kept_size /\
  (forall i, In i (kept_indices_of kept_size losses) ->
             (i < length losses)%nat) /\
  smallest_prefix losses (kept_indices_of kept_size losses).
Proof.
  intros Hk.
  destruct (kept_indices_facts losses kept_size) as (Hnd & Hin & Hsz & Hmin).
  repeat split; auto.
Qed.

End TrimmedLoss.

(** ** Examples for the loss *)

Example outlier_example :
  SquaredLoss_call (A := stable_argsort) example_loss example_X [1] example_y
  = Ok (0 # 4, [0 # 4]).
Proof. reflexivity. Qed.

Lemma SquaredLoss_call_zero_contamination_witness :
  kept_size_of {| contamination_proportion := 0 |} example_X = 5%Z /\
  mean_squared_error_result example_X [1] example_y
    (SquaredLoss_call (A := reversing_argsort)
       {| contamination_proportion := 0 |} example_X [1] example_y).
Proof.
  apply (SquaredLoss_call_zero_contamination (A := reversing_argsort)
           {| contamination_proportion := 0 |} example_X [1] example_y).
  - repeat constructor.
  - simpl. lia.
  - reflexivity.
  - reflexivity.
  - reflexivity.
Defined.

(** With a stable sort in the place of [np.argsort] the kept set is the
    prefix of the order by squared residual and original index. *)
Lemma insert_index_stable (a : list Q) (i : nat) (l : list nat) :
  StronglySorted (lex_before a) l ->
  Forall (fun j => (j < i)%nat) l ->
  StronglySorted (lex_before a) (insert_index Qle_bool a i l).
Proof.
  induction 1 as [|j l Hs IH Hj]; intros Hlt; simpl.
  - repeat constructor.
  - inversion Hlt as [|? ? Hji Hlt']; subst.
    destruct (Qle_bool (nth j a 0) (nth i a 0)) eqn:E.
    + constructor; [auto|].
      apply (Permutation_Forall
               (Permutation_sym (insert_index_perm Qle_bool a i l))).
      constructor; [|exact Hj].
      apply Qle_bool_iff in E. unfold lex_before.
      destruct (Qlt_le_dec (nth j a 0) (nth i a 0)) as [H|H]; [now left|].
      right. split; [now apply Qle_antisym|exact Hji].
    + assert (H : nth i a 0 < nth j a 0).
      { apply Qnot_le_lt. intros C. apply Qle_bool_iff in C. congruence. }
      constructor; [now constructor|].
      constructor; [now left|].
      apply (Forall_impl _ (P := lex_before a j)); [|exact Hj].
      intros k [Hk|[Hk _]]; left.
      * eapply Qlt_trans; eassumption.
      * now rewrite <- Hk.
Qed.

Lemma stable_argsort_sorted (a : list Q) :
  StronglySorted (lex_before a) (argsort (ArgSort := stable_argsort) a).
Proof.
  unfold argsort, stable_argsort, insertion_argsort.
  assert (G : forall n s acc,
             StronglySorted (lex_before a) acc ->
             Forall (fun j => (j < s)%nat) acc ->
             StronglySorted (lex_before a)
               (fold_left (fun sorted i => insert_index Qle_bool a i sorted)
                          (seq s n) acc)).
  { induction n as [|n IH]; intros s acc Hs Hlt; simpl; [exact Hs|].
    apply IH.
    - now apply insert_index_stable.
    - apply (Permutation_Forall
               (Permutation_sym (insert_index_perm Qle_bool a s acc))).
      constructor; [lia|].
      apply (Forall_impl _ (P := fun j => (j < s)%nat)); [|exact Hlt].
      intros j Hj. lia. }
  apply G; constructor.
Qed.

Lemma stable_argsort_stable_prefix (losses : list Q) (kept_size : Z) :
  stable_prefix losses
    (kept_indices_of (A := stable_argsort) kept_size losses).
Proof.
  unfold stable_prefix, kept_indices_of. intros i j Hi Hj Hnj.
  destruct (slice_to_prefix kept_size
              (argsort (ArgSort := stable_argsort) losses)) as (m & E & _).
  rewrite E in Hi, Hnj.
  apply (sorted_prefix_below _ _ (stable_argsort_sorted losses) m i j Hi).
  apply (perm_seq_facts _ _ (argsort_perm (A := stable_argsort) losses)) in Hj.
  rewrite <- (firstn_skipn m (argsort losses)) in Hj.
  apply in_app_or in Hj. tauto.
Qed.

(** Two sorts within the contract can return different gradients: two
    samples with residuals [-1] and [1], one of them kept.  (numpy's own
    sort keeps the first of these two; it departs from the stable order on
    longer inputs, see the section on ties under numpy's default sort.) *)
Example tie_break_changes_gradient :
  let self := {| contamination_proportion := 1 # 2 |} in
  let X := Matrix 1 [[1]; [2]] in
  SquaredLoss_call (A := stable_argsort) self X [0] [1; -1]
    = Ok (1, [-2 # 1]) /\
  SquaredLoss_call (A := reversing_argsort) self X [0] [1; -1]
    = Ok (1, [4 # 1]).
Proof. split; reflexivity. Qed.

(** ** Invalid configuration and input *)

Lemma kept_size_zero (self : Loss) (X : matrix) :
  rows X = [] \/ contamination_proportion self == 1 ->
  kept_size_of self X = 0%Z.
Proof.
  intros H. unfold kept_size_of, ceil.
  change 0%Z with (Qceiling 0). apply Qceiling_comp.
  destruct H as [H|H].
  - unfold shape0, len. rewrite H. simpl. ring.
  - rewrite H. ring.
Qed.

(** C5, as the code has it.  [SquaredLoss] validates nothing: the
    constructor stores every contamination proportion, and a call on
    arrays of matching shapes with no sample, or with a contamination
    proportion of one, stops at the division by [kept_size = 0] with
    Python's [ZeroDivisionError]. *)
Theorem SquaredLoss_no_validation :
  (forall c : Q, SquaredLoss_init c = Ok {| contamination_proportion := c |}) /\
  (forall (A : ArgSort) (self : Loss) (X : matrix) (w y : list Q),
     ArgSortLaws A ->
     length w = ncols X ->
     length y = length (rows X) ->
     rows X = [] \/ contamination_proportion self == 1 ->
     SquaredLoss_call self X w y = Raise ZeroDivisionError).
Proof.
  split; [reflexivity|].
  intros A self X w y AL Hw Hy H.
  rewrite (SquaredLoss_call_shapes X w y Hw Hy). cbv zeta.
  rewrite (kept_size_zero self X H). reflexivity.
Qed.

Lemma SquaredLoss_no_validation_witness :
  SquaredLoss_call (A := stable_argsort)
    {| contamination_proportion := 0 |} (Matrix 1 []) [1] []
    = Raise ZeroDivisionError /\
  SquaredLoss_call (A := stable_argsort)
    {| contamination_proportion := 1 |} example_X [1] example_y
    = Raise ZeroDivisionError.
Proof.
  split.
  - apply (proj2 SquaredLoss_no_validation);
      [exact stable_argsort_laws | reflexivity | reflexivity
      | left; reflexivity].
  - apply (proj2 SquaredLoss_no_validation);
      [exact stable_argsort_laws | reflexivity | reflexivity
      | right; reflexivity].
Defined.

(** C5, as the claim states it, fails: a contamination proportion of 3/2,
    or a negative one, is accepted by the constructor, and the call then
    returns a loss and a gradient instead of raising. *)
Lemma invalid_contamination_not_rejected :
  ~ (forall c : Q, (1 <= c \/ c < 0) ->
       (exists e, SquaredLoss_init c = Raise e) \/
       (forall self, SquaredLoss_init c = Ok self ->
          exists e, SquaredLoss_call (A := stable_argsort)
                      self example_X [2] example_y = Raise e)).
Proof.
  intros H.
  destruct (H (3 # 2)) as [[e C]|C].
  - left. discriminate.
  - discriminate C.
  - destruct (C _ eq_refl) as [e C']. vm_compute in C'. discriminate C'.
Qed.

Example invalid_contamination_results :
  SquaredLoss_call (A := stable_argsort)
    {| contamination_proportion := 3 # 2 |} example_X [2] example_y
    = Ok (-14 # 2, [-28 # 2]) /\
  SquaredLoss_call (A := stable_argsort)
    {| contamination_proportion := - (1 # 2) |} example_X [2] example_y
    = Ok (8503 # 8, [-658 # 8]).
Proof. split; reflexivity. Qed.

(** * preprocessor.py *)

(** ** NullPreprocessor *)

(** C10.  [NullPreprocessor.__call__] returns its two arrays unchanged. *)
Theorem NullPreprocessor_call_identity (x y : list Q) :
  NullPreprocessor_call x y = Ok (x, y).
Proof. reflexivity. Qed.

(** ** ClusteringPreprocessor *)

Lemma where_ne_in (labels : list Z) (v : Z) (i : nat) :
  In i (where_ne labels v) <->
  (i < length labels)%nat /\ nth i labels v <> v.
Proof.
  unfold where_ne. rewrite filter_In, in_seq, negb_true_iff, Z.eqb_neq. lia.
Qed.

Lemma delete_where_ne_shifted (a : list Q) :
  forall (before labels : list Z),
    length labels = length a ->
    map snd
      (filter (fun p => negb (existsb (Nat.eqb (fst p))
                                      (where_ne (before ++ labels) (-1))))
              (List.combine (seq (length before) (length a)) a))
    = noise_only a labels.
Proof.
  induction a as [|ai a IH]; intros before [|l labels] Hlen;
    try discriminate; try reflexivity.
  simpl in Hlen. injection Hlen as Hlen.
  cbn [length seq List.combine filter fst noise_only].
  assert (E : existsb (Nat.eqb (length before))
                      (where_ne (before ++ l :: labels) (-1))
              = negb (l =? -1)%Z).
  { apply eq_true_iff_eq. rewrite existsb_exists, negb_true_iff, Z.eqb_neq.
    split.
    - intros (i & Hi & Hx). apply Nat.eqb_eq in Hx. subst i.
      apply where_ne_in in Hi. now rewrite nth_middle in Hi.
    - intros Hl. exists (length before). rewrite Nat.eqb_refl. split; auto.
      apply where_ne_in. rewrite nth_middle, length_app. simpl. split; [lia|auto]. }
  rewrite E, negb_involutive.
  specialize (IH (before ++ [l]) labels Hlen).
  rewrite <- app_assoc, length_app in IH. simpl in IH.
  rewrite Nat.add_1_r in IH.
  destruct (l =? -1)%Z; simpl; now rewrite IH.
Qed.

Lemma delete_where_ne (a : list Q) (labels : list Z) :
  length labels = length a ->
  delete a (where_ne labels (-1)) = Ok (noise_only a labels).
Proof.
  intros Hlen. unfold delete.
  assert (E : forallb (fun i => Nat.ltb i (length a)) (where_ne labels (-1))
              = true).
  { apply forallb_forall. intros i Hi. apply where_ne_in in Hi.
    apply Nat.ltb_lt. lia. }
  rewrite E. f_equal.
  exact (delete_where_ne_shifted a [] labels Hlen).
Qed.

Section DensityFilter.

Context {L : Labeler}.

(** C2.  In mode ["DBSCAN"], on parallel arrays and for every labelling
    that the clustering capability returns for them (one label per
    sample), [ClusteringPreprocessor.__call__] returns the samples whose
    label is the noise label [-1], in their original order, and drops all
    the others. *)
Theorem ClusteringPreprocessor_call_keeps_noise
    (self : ClusteringPreprocessor) (x y : list Q) (labels : list Z) :
  mode self = "DBSCAN"%string ->
  length x = length y ->
  fit_labels (eps self) (min_samples self) (zip x y) = Ok labels ->
  length labels = length x ->
  ClusteringPreprocessor_call self x y
  = Ok (Some (noise_only x labels, noise_only y labels)).
Proof.
  intros Hmode Hxy Hfit Hlen. unfold ClusteringPreprocessor_call, c_.
  rewrite Hmode, String.eqb_refl, Hxy, Nat.eqb_refl. simpl.
  rewrite Hfit. simpl.
  rewrite (delete_where_ne x labels Hlen). simpl.
  rewrite (delete_where_ne y labels) by congruence. reflexivity.
Qed.

(** C8: what the code does.  In every mode other than ["DBSCAN"] the body
    of [ClusteringPreprocessor.__call__] ends without a [return]: the call
    raises nothing and its value is [None]. *)
Theorem ClusteringPreprocessor_call_other_mode
    (self : ClusteringPreprocessor) (x y : list Q) :
  mode self <> "DBSCAN"%string ->
  ClusteringPreprocessor_call self x y = Ok None.
Proof.
  intros H. unfold ClusteringPreprocessor_call.
  destruct (String.eqb_spec (mode self) "DBSCAN"); [contradiction|reflexivity].
Qed.

End DensityFilter.

Lemma ClusteringPreprocessor_call_keeps_noise_witness :
  ClusteringPreprocessor_call (L := example_labeler)
    (ClusteringPreprocessor_init "DBSCAN" 1 5) [1; 7; 2; 3; 9] [6; 7; 8; 9; 10]
  = Ok (Some ([7; 9], [7; 10])).
Proof.
  apply (ClusteringPreprocessor_call_keeps_noise (L := example_labeler)
           (ClusteringPreprocessor_init "DBSCAN" 1 5)
           [1; 7; 2; 3; 9] [6; 7; 8; 9; 10] [0; -1; 0; 0; -1]%Z);
    reflexivity.
Defined.

Lemma ClusteringPreprocessor_call_other_mode_witness :
  ClusteringPreprocessor_call (L := example_labeler)
    (ClusteringPreprocessor_init "KMeans" 1 5) [1; 2] [3; 4] = Ok None.
Proof.
  apply (ClusteringPreprocessor_call_other_mode (L := example_labeler)).
  discriminate.
Defined.

(** ** KernelPreprocessor: the dictionary of windows *)

Lemma key_eqb_eq (k k' : Z * Z) : key_eqb k k' = true <-> k = k'.
Proof.
  destruct k as [a b], k' as [a' b']. unfold key_eqb. simpl.
  rewrite andb_true_iff, !Z.eqb_eq. split.
  - intros [-> ->]. reflexivity.
  - intros [= -> ->]. auto.
Qed.

Lemma key_eqb_refl (k : Z * Z) : key_eqb k k = true.
Proof. now apply key_eqb_eq. Qed.

Lemma existsb_key_In (key : Z * Z) (keys : list (Z * Z)) :
  existsb (key_eqb key) keys = true <-> In key keys.
Proof.
  rewrite existsb_exists. split.
  - intros (k & Hk & E). apply key_eqb_eq in E. now subst.
  - intros H. exists key. split; [exact H|apply key_eqb_refl].
Qed.

Lemma dict_get_append (key key' : Z * Z) (s : sample) (d : kernels_dict) :
  dict_get key' (dict_append key s d) =
  if key_eqb key' key then Some (appended (dict_get key d) s)
  else dict_get key' d.
Proof.
  induction d as [|[k ms] d IH]; simpl.
  - destruct (key_eqb key' key); reflexivity.
  - destruct (key_eqb key k) eqn:E; simpl.
    + apply key_eqb_eq in E. subst k.
      destruct (key_eqb key' key); reflexivity.
    + rewrite IH. destruct (key_eqb key' key) eqn:E'.
      * apply key_eqb_eq in E'. subst key'. now rewrite E.
      * reflexivity.
Qed.

Lemma dict_get_None (key : Z * Z) (d : kernels_dict) :
  dict_get key d = None <-> ~ In key (map fst d).
Proof.
  induction d as [|[k ms] d IH]; simpl.
  - tauto.
  - destruct (key_eqb key k) eqn:E.
    + apply key_eqb_eq in E. subst. split; [discriminate|]. tauto.
    + rewrite IH. split.
      * intros H [C|C]; [|tauto]. subst. now rewrite key_eqb_refl in E.
      * tauto.
Qed.

Lemma dict_get_In (key : Z * Z) (ms : list sample) (d : kernels_dict) :
  NoDup (map fst d) ->
  (In (key, ms) d <-> dict_get key d = Some ms).
Proof.
  induction d as [|[k ms'] d IH]; simpl; intros Hnd.
  - split; [tauto|discriminate].
  - inversion Hnd as [|? ? Hk Hnd']; subst.
    destruct (key_eqb key k) eqn:E.
    + apply key_eqb_eq in E. subst k. split.
      * intros [[= ->]|C]; [reflexivity|].
        exfalso. apply Hk. now apply (in_map fst) in C.
      * intros [= ->]. now left.
    + rewrite <- (IH Hnd'). split.
      * intros [[= -> ->]|C]; [now rewrite key_eqb_refl in E|exact C].
      * tauto.
Qed.

Lemma dict_append_keys (key : Z * Z) (s : sample) (d : kernels_dict) :
  NoDup (map fst d) -> NoDup (map fst (dict_append key s d)).
Proof.
  induction d as [|[k ms] d IH]; simpl; intros Hnd.
  - repeat constructor. tauto.
  - destruct (key_eqb key k) eqn:E; simpl; [exact Hnd|].
    inversion Hnd as [|? ? Hk Hnd']; subst. constructor; [|auto].
    apply dict_get_None. rewrite dict_get_append.
    destruct (key_eqb k key) eqn:E'.
    + apply key_eqb_eq in E'. subst. now rewrite key_eqb_refl in E.
    + now apply dict_get_None.
Qed.

(** The inner loops for one sample: the value of every key afterwards. *)
Lemma dict_get_fold_append (s : sample) (keys : list (Z * Z)) :
  NoDup keys ->
  forall (d : kernels_dict) (key : Z * Z),
    dict_get key (fold_left (fun d k => dict_append k s d) keys d) =
    if existsb (key_eqb key) keys then Some (appended (dict_get key d) s)
    else dict_get key d.
Proof.
  induction 1 as [|k keys Hk Hnd IH]; intros d key; simpl.
  - reflexivity.
  - rewrite IH, dict_get_append.
    destruct (key_eqb key k) eqn:E; simpl.
    + apply key_eqb_eq in E. subst k.
      destruct (existsb (key_eqb key) keys) eqn:E'; [|reflexivity].
      apply existsb_key_In in E'. contradiction.
    + reflexivity.
Qed.

Lemma fold_append_keys (s : sample) (keys : list (Z * Z)) :
  forall d : kernels_dict,
    NoDup (map fst d) ->
    NoDup (map fst (fold_left (fun d k => dict_append k s d) keys d)).
Proof.
  induction keys as [|k keys IH]; intros d Hd; simpl.
  - exact Hd.
  - apply IH, dict_append_keys, Hd.
Qed.


Section Fill.

Variables (self : KernelPreprocessor) (x y : list Q).
Variable assign : sample -> list (Z * Z).



End Fill.

(** ** KernelPreprocessor: the window indices of a sample *)




Lemma range_NoDup (lo hi : Z) : NoDup (range lo hi).
Proof.
  unfold range. apply Finite.Injective_map_NoDup; [|apply seq_NoDup].
  intros i j H. lia.
Qed.

Lemma cross_In (ixs iys : list Z) (k : Z * Z) :
  In k (cross ixs iys) <-> In (fst k) ixs /\ In (snd k) iys.
Proof.
  unfold cross. rewrite in_flat_map. destruct k as [a b]. simpl. split.
  - intros (ix & Hix & H). apply in_map_iff in H.
    destruct H as (iy & [= -> ->] & Hiy). auto.
  - intros [Ha Hb]. exists a. split; [exact Ha|]. now apply in_map.
Qed.

Lemma cross_NoDup (ixs iys : list Z) :
  NoDup ixs -> NoDup iys -> NoDup (cross ixs iys).
Proof.
  intros Hx Hy. induction Hx as [|ix ixs Hix Hx IH]; simpl.
  - constructor.
  - apply NoDup_app; [| exact IH |].
    + apply Finite.Injective_map_NoDup; [|exact Hy].
      intros a b [= ->]. reflexivity.
    + intros k Hk Hk'. apply in_map_iff in Hk. destruct Hk as (iy & <- & _).
      apply (cross_In ixs iys) in Hk'. simpl in Hk'. tauto.
Qed.


(** ** KernelPreprocessor: the second loop with the mean strategy *)

Lemma fold_sums (ms : list sample) (acc : Q * Q) :
  let sums :=
    fold_left (fun acc s => (fst acc + fst s, snd acc + snd s)) ms acc in
  fst sums == fst acc + Qsum (map fst ms) /\
  snd sums == snd acc + Qsum (map snd ms).
Proof.
  revert acc. induction ms as [|s ms IH]; intros acc; simpl.
  - split; ring.
  - destruct (IH (fst acc + fst s, snd acc + snd s)) as [H1 H2].
    simpl in H1, H2. rewrite H1, H2. split; ring.
Qed.

Lemma mean_of_is_mean (ms : list sample) : is_mean (mean_of ms) ms.
Proof.
  destruct (fold_sums ms (0, 0)) as [H1 H2]. simpl in H1, H2.
  unfold is_mean, mean_of. simpl. rewrite H1, H2, !Qplus_0_l.
  split; reflexivity.
Qed.

Lemma mean_combine (self : KernelPreprocessor) (ts : Z) (ms : list sample) :
  threshold_size self = Some ts ->
  ms <> [] ->
  combine (CombineStrategy := MeanKernelPreprocessor_combine) self ms =
  Ok (if (len ms <? ts)%Z then None else Some (mean_of ms)).
Proof.
  intros Hts Hne. unfold combine, MeanKernelPreprocessor_combine.
  rewrite Hts. destruct (len ms <? ts)%Z; [reflexivity|].
  unfold div_int. destruct (Z.eqb_spec (len ms) 0) as [E|_].
  - destruct ms; [contradiction|]. unfold len in E. simpl in E. lia.
  - reflexivity.
Qed.

Lemma emit_mean (self : KernelPreprocessor) (ts : Z) (kernels : kernels_dict) :
  threshold_size self = Some ts ->
  Forall (fun e => snd e <> []) kernels ->
  forall new_x new_y : list Q,
    emit (C := MeanKernelPreprocessor_combine) self kernels new_x new_y =
    let outs :=
      map mean_of (filter (fun ms => (ts <=? len ms)%Z) (map snd kernels)) in
    Ok (new_x ++ map fst outs, new_y ++ map snd outs).
Proof.
  intros Hts. induction 1 as [|[key ms] kernels Hms _ IH];
    intros new_x new_y; simpl.
  - now rewrite !app_nil_r.
  - rewrite (mean_combine self ts ms Hts Hms). simpl.
    rewrite Z.leb_antisym. destruct (len ms <? ts)%Z; simpl.
    + apply IH.
    + rewrite IH. simpl. now rewrite <- !app_assoc.
Qed.


(** C9.  On an empty input the grid aggregator, whatever its configuration
    and combine strategy, populates no window, raises nothing and returns
    two empty arrays. *)
Theorem KernelPreprocessor_call_empty
    (C : CombineStrategy) (self : KernelPreprocessor) (y : list Q) :
  fill self [] y (zip [] y) [] = Ok [] /\
  KernelPreprocessor_call self [] y
  = Ok (set_threshold_size self None, ([], [])).
Proof. split; reflexivity. Qed.

(** ** Filters *)


(** * Further properties of loss.py *)

(** ** Sums and means of lists ordered against each other *)

Lemma len_cons {B : Type} (b : B) (l : list B) :
  inject_Z (len (b :: l)) == 1 + inject_Z (len l).
Proof.
  unfold len. simpl length. rewrite Nat2Z.inj_succ, <- Z.add_1_l.
  now rewrite inject_Z_plus.
Qed.

Lemma len_app {B : Type} (l1 l2 : list B) :
  inject_Z (len (l1 ++ l2)) == inject_Z (len l1) + inject_Z (len l2).
Proof.
  unfold len. now rewrite length_app, Nat2Z.inj_add, inject_Z_plus.
Qed.

Lemma len_nonneg {B : Type} (l : list B) : 0 <= inject_Z (len l).
Proof. change 0 with (inject_Z 0). rewrite <- Zle_Qle. unfold len. lia. Qed.

Lemma len_pos {B : Type} (l : list B) : l <> [] -> 0 < inject_Z (len l).
Proof.
  intros H. change 0 with (inject_Z 0). rewrite <- Zlt_Qlt.
  destruct l; [contradiction|]. unfold len. simpl. lia.
Qed.

Lemma Qsum_ge_const {B : Type} (f : B -> Q) (l : list B) (c : Q) :
  (forall b, In b l -> c <= f b) ->
  inject_Z (len l) * c <= Qsum (map f l).
Proof.
  induction l as [|b l IH]; intros H.
  - change (inject_Z (len (@nil B))) with 0. simpl. lra.
  - rewrite len_cons. simpl.
    assert (c <= f b) by (apply H; now left).
    assert (inject_Z (len l) * c <= Qsum (map f l))
      by (apply IH; intros; apply H; now right).
    lra.
Qed.


Lemma Qsum_nonneg {B : Type} (f : B -> Q) (l : list B) :
  (forall b, In b l -> 0 <= f b) -> 0 <= Qsum (map f l).
Proof.
  intros H. pose proof (Qsum_ge_const f l 0 H). lra.
Qed.

(** When no element of [K] is above an element of [R], the sums compare
    like the lengths. *)
Lemma cross_sums {B : Type} (f : B -> Q) (K R : list B) :
  (forall i j, In i K -> In j R -> f i <= f j) ->
  inject_Z (len R) * Qsum (map f K) <= inject_Z (len K) * Qsum (map f R).
Proof.
  induction K as [|i K IH]; intros H.
  - change (inject_Z (len (@nil B))) with 0. simpl. lra.
  - rewrite len_cons. simpl.
    assert (H1 : inject_Z (len R) * f i <= Qsum (map f R))
      by (apply Qsum_ge_const; intros j Hj; apply H; [now left|exact Hj]).
    assert (H2 : inject_Z (len R) * Qsum (map f K)
                 <= inject_Z (len K) * Qsum (map f R))
      by (apply IH; intros a b Ha Hb; apply H; [now right|exact Hb]).
    lra.
Qed.

Lemma Qdiv_le_cross (a b k n : Q) :
  0 < k -> 0 < n -> a * n <= b * k -> a / k <= b / n.
Proof.
  intros Hk Hn H. apply Qle_shift_div_r; [assumption|].
  setoid_replace (b / n * k) with (b * k / n) by (field; lra).
  apply Qle_shift_div_l; assumption.
Qed.

(** The mean of the lower part is at most the mean of the whole. *)
Lemma prefix_mean_le {B : Type} (f : B -> Q) (K R : list B) :
  K <> [] ->
  (forall i j, In i K -> In j R -> f i <= f j) ->
  Qsum (map f K) / inject_Z (len K)
  <= Qsum (map f (K ++ R)) / inject_Z (len (K ++ R)).
Proof.
  intros HK H.
  pose proof (len_pos K HK) as Hk. pose proof (len_nonneg R) as Hr.
  pose proof (cross_sums f K R H) as Hc.
  apply Qdiv_le_cross.
  - exact Hk.
  - rewrite len_app. lra.
  - rewrite map_app, Qsum_app, len_app. nra.
Qed.

Lemma square_nonneg (r : Q) : 0 <= r * r.
Proof. nra. Qed.

Lemma squared_residual_nonneg (X : matrix) (w y : list Q) (i : nat) :
  0 <= squared_residual X w y i.
Proof. apply square_nonneg. Qed.

(** ** The kept samples as a prefix of the sorted order *)

Lemma kept_indices_firstn {A : ArgSort} (k : Z) (losses : list Q) :
  (0 <= k)%Z ->
  kept_indices_of k losses = firstn (Z.to_nat k) (argsort losses).
Proof.
  intros H. unfold kept_indices_of, slice_to.
  destruct (Z.leb_spec 0 k); [reflexivity|lia].
Qed.

Section SortedLosses.

Context {A : ArgSort} {AL : ArgSortLaws A}.
Variables (X : matrix) (w y : list Q).
Hypothesis X_shape : well_shaped X.
Hypothesis w_shape : length w = ncols X.
Hypothesis y_shape : length y = length (rows X).

Lemma sorted_order_perm :
  Permutation (argsort (square (computed_residuals X w y)))
              (seq 0 (length (rows X))).
Proof.
  pose proof (argsort_perm (square (computed_residuals X w y))) as P.
  unfold square in P at 2.
  now rewrite length_map, computed_residuals_length in P.
Qed.

Lemma sorted_order_split (m : nat) (i j : nat) :
  In i (firstn m (argsort (square (computed_residuals X w y)))) ->
  In j (skipn m (argsort (square (computed_residuals X w y)))) ->
  squared_residual X w y i <= squared_residual X w y j.
Proof.
  intros Hi Hj.
  set (L := argsort (square (computed_residuals X w y))) in *.
  assert (Hin : forall a, In a L -> (a < length (rows X))%nat).
  { intros a Ha. apply (perm_seq_facts _ _ sorted_order_perm). exact Ha. }
  assert (Hi' : In i L)
    by (rewrite <- (firstn_skipn m L); apply in_or_app; now left).
  assert (Hj' : In j L)
    by (rewrite <- (firstn_skipn m L); apply in_or_app; now right).
  rewrite <- (computed_losses_nth X w y X_shape w_shape y_shape i) by auto.
  rewrite <- (computed_losses_nth X w y X_shape w_shape y_shape j) by auto.
  exact (sorted_prefix_below _ _ (argsort_sorted _) m i j Hi Hj).
Qed.

Lemma sum_all_sorted_order (f : nat -> Q) :
  Qsum (map f (argsort (square (computed_residuals X w y))))
  == Qsum (map f (seq 0 (length (rows X)))).
Proof. apply Qsum_perm, Permutation_map, sorted_order_perm. Qed.

End SortedLosses.

Section LossBounds.

Context {A : ArgSort} {AL : ArgSortLaws A}.

(** X1.  On valid input (shapes as in C1, contamination in [[0, 1)]) the
    returned loss is never negative and never above the mean squared error
    of all [n] samples at the same weights. *)
Theorem SquaredLoss_call_loss_bounds
    (self : Loss) (X : matrix) (w y : list Q) :
  well_shaped X ->
  (1 <= length (rows X))%nat ->
  length w = ncols X ->
  length y = length (rows X) ->
  0 <= contamination_proportion self ->
  contamination_proportion self < 1 ->
  exists (loss : Q) (gradient : list Q),
    SquaredLoss_call self X w y = Ok (loss, gradient) /\
    0 <= loss /\
    loss <= (1 / inject_Z (Z.of_nat (length (rows X))))
            * Qsum (map (squared_residual X w y)
                        (seq 0 (length (rows X)))).
Proof.
  intros HX Hn Hw Hy H0 H1.
  pose proof (kept_size_bounds self X Hn H0 H1) as Hk.
  destruct (SquaredLoss_call_on_kept self X w y HX Hw Hy)
    as (loss & gradient & Hcall & Hloss & _); [lia|].
  cbv zeta in Hloss.
  set (k := kept_size_of self X) in *.
  set (losses := square (computed_residuals X w y)) in *.
  assert (Hl : length losses = length (rows X)).
  { unfold losses, square. now rewrite length_map, computed_residuals_length. }
  destruct (kept_indices_facts losses k) as (_ & _ & Hsz & _).
  assert (Hlen : len (kept_indices_of k losses) = k).
  { apply Hsz. unfold len, shape0, len in *. rewrite Hl. lia. }
  rewrite (kept_indices_firstn k losses) in Hloss, Hlen by lia.
  set (m := Z.to_nat k) in *.
  set (K := firstn m (argsort losses)) in *.
  assert (HK : K <> []).
  { intros C. rewrite C in Hlen. unfold len in Hlen. simpl in Hlen. lia. }
  assert (Hkq : 0 < inject_Z k).
  { change 0 with (inject_Z 0). rewrite <- Zlt_Qlt. lia. }
  exists loss, gradient. split; [exact Hcall|]. split.
  - rewrite Hloss.
    pose proof (Qsum_nonneg (squared_residual X w y) K
                  (fun i _ => squared_residual_nonneg X w y i)) as Hs.
    apply Qmult_le_0_compat; [|exact Hs].
    apply Qle_shift_div_l; [exact Hkq|]. lra.
  - pose proof (prefix_mean_le (squared_residual X w y) K
                  (skipn m (argsort losses)) HK
                  (sorted_order_split X w y HX Hw Hy m)) as Hm.
    unfold K in Hm at 3 4. rewrite !firstn_skipn in Hm.
    unfold losses in Hm. rewrite (sum_all_sorted_order X w y Hw Hy) in Hm.
    rewrite Hlen in Hm.
    replace (len (argsort losses)) with (Z.of_nat (length (rows X))) in Hm.
    2:{ unfold len. f_equal. symmetry.
        apply (perm_seq_facts _ _ (sorted_order_perm X w y Hw Hy)). }
    rewrite Hloss.
    setoid_replace (1 / inject_Z k * Qsum (map (squared_residual X w y) K))
      with (Qsum (map (squared_residual X w y) K) / inject_Z k)
      by (field; lra).
    eapply Qle_trans; [exact Hm|]. apply Qle_lteq. right. field.
    change 0 with (inject_Z 0). rewrite inject_Z_injective. lia.
Qed.

End LossBounds.

Lemma SquaredLoss_call_loss_bounds_witness :
  exists (loss : Q) (gradient : list Q),
    SquaredLoss_call (A := stable_argsort) example_loss example_X [2] example_y
    = Ok (loss, gradient) /\
    0 <= loss /\
    loss <= (1 / 5) * Qsum (map (squared_residual example_X [2] example_y)
                                (seq 0 5)).
Proof.
  apply (SquaredLoss_call_loss_bounds (A := stable_argsort)
           example_loss example_X [2] example_y).
  - repeat constructor.
  - simpl. lia.
  - reflexivity.
  - reflexivity.
  - discriminate.
  - reflexivity.
Defined.

(** ** The kept sum is the least sum over index sets of the same size *)

Lemma Qsum_filter_split {B : Type} (f : B -> Q) (p : B -> bool) (l : list B) :
  Qsum (map f l)
  == Qsum (map f (filter p l))
     + Qsum (map f (filter (fun b => negb (p b)) l)).
Proof.
  induction l as [|b l IH]; simpl.
  - lra.
  - destruct (p b); simpl; lra.
Qed.

Lemma Qsum_pairwise_le {B : Type} (f : B -> Q) (K K' : list B) :
  length K = length K' ->
  (forall i j, In i K -> In j K' -> f i <= f j) ->
  Qsum (map f K) <= Qsum (map f K').
Proof.
  revert K'. induction K as [|i K IH]; intros [|j K'] Hlen H;
    try discriminate.
  change (f i + Qsum (map f K) <= f j + Qsum (map f K')).
  assert (f i <= f j) by (apply H; now left).
  assert (Qsum (map f K) <= Qsum (map f K')).
  { apply IH; [simpl in Hlen; lia|].
    intros a b Ha Hb. apply H; now right. }
  lra.
Qed.

Lemma existsb_eqb_In (i : nat) (l : list nat) :
  existsb (Nat.eqb i) l = true <-> In i l.
Proof.
  rewrite existsb_exists. split.
  - intros (j & Hj & E). apply Nat.eqb_eq in E. now subst.
  - intros H. exists i. split; [exact H|apply Nat.eqb_refl].
Qed.

Lemma smallest_sum_le (f : nat -> Q) (K K' : list nat) :
  NoDup K -> NoDup K' -> length K = length K' ->
  (forall i j, In i K -> In j K' -> ~ In j K -> f i <= f j) ->
  Qsum (map f K) <= Qsum (map f K').
Proof.
  intros HK HK' Hlen H.
  rewrite (Qsum_filter_split f (fun i => existsb (Nat.eqb i) K') K).
  rewrite (Qsum_filter_split f (fun i => existsb (Nat.eqb i) K) K').
  assert (P : Permutation (filter (fun i => existsb (Nat.eqb i) K') K)
                          (filter (fun i => existsb (Nat.eqb i) K) K')).
  { apply NoDup_Permutation; try now apply NoDup_filter.
    intros i. rewrite !filter_In, !existsb_eqb_In. tauto. }
  rewrite (Qsum_perm _ _ (Permutation_map f P)).
  apply Qplus_le_r. apply Qsum_pairwise_le.
  - pose proof (filter_length (fun i => existsb (Nat.eqb i) K') K).
    pose proof (filter_length (fun i => existsb (Nat.eqb i) K) K').
    pose proof (Permutation_length P). lia.
  - intros i j Hi Hj. apply filter_In in Hi, Hj.
    destruct Hi as [Hi _], Hj as [Hj Hnj].
    apply H; [exact Hi|exact Hj|].
    intros C. apply existsb_eqb_In in C. rewrite C in Hnj. discriminate.
Qed.

Section LeastTrimmedSquares.

Context {A : ArgSort} {AL : ArgSortLaws A}.

Lemma kept_sum_minimal (X : matrix) (w y : list Q) (k : Z) (K' : list nat) :
  well_shaped X ->
  length w = ncols X ->
  length y = length (rows X) ->
  (0 <= k <= shape0 X)%Z ->
  NoDup K' ->
  (forall i, In i K' -> (i < length (rows X))%nat) ->
  Z.of_nat (length K') = k ->
  Qsum (map (squared_residual X w y)
            (kept_indices_of k (square (computed_residuals X w y))))
  <= Qsum (map (squared_residual X w y) K').
Proof.
  intros HX Hw Hy Hk HK' Hin' Hlen'.
  set (losses := square (computed_residuals X w y)).
  assert (Hl : length losses = length (rows X)).
  { unfold losses, square. now rewrite length_map, computed_residuals_length. }
  destruct (kept_indices_facts losses k) as (Hnd & Hin & Hsz & Hmin).
  rewrite Hl in Hin, Hmin.
  apply smallest_sum_le; auto.
  - apply Nat2Z.inj. rewrite Hlen'. apply Hsz.
    unfold len, shape0, len in *. rewrite Hl. exact Hk.
  - intros i j Hi Hj Hnj.
    rewrite <- (computed_losses_nth X w y HX Hw Hy i) by auto.
    rewrite <- (computed_losses_nth X w y HX Hw Hy j) by auto.
    apply Hmin; auto.
Qed.

End LeastTrimmedSquares.

(** X3.  The loss does not depend on how [np.argsort] orders equal squared
    residuals: two sorts within the contract give equal losses on valid
    input (the gradients may differ, see [tie_break_changes_gradient]). *)
Theorem SquaredLoss_call_loss_tie_independent
    (A B : ArgSort) (self : Loss) (X : matrix) (w y : list Q) :
  ArgSortLaws A ->
  ArgSortLaws B ->
  well_shaped X ->
  (1 <= length (rows X))%nat ->
  length w = ncols X ->
  length y = length (rows X) ->
  0 <= contamination_proportion self ->
  contamination_proportion self < 1 ->
  exists (lossA lossB : Q) (gradientA gradientB : list Q),
    SquaredLoss_call (A := A) self X w y = Ok (lossA, gradientA) /\
    SquaredLoss_call (A := B) self X w y = Ok (lossB, gradientB) /\
    lossA == lossB.
Proof.
  intros LA LB HX Hn Hw Hy H0 H1.
  pose proof (kept_size_bounds self X Hn H0 H1) as Hk.
  destruct (SquaredLoss_call_on_kept (A := A) self X w y HX Hw Hy)
    as (lossA & gA & HcA & HlA & _); [lia|].
  destruct (SquaredLoss_call_on_kept (A := B) self X w y HX Hw Hy)
    as (lossB & gB & HcB & HlB & _); [lia|].
  cbv zeta in HlA, HlB.
  exists lossA, lossB, gA, gB. repeat split; auto.
  rewrite HlA, HlB. apply Qmult_comp; [reflexivity|].
  set (losses := square (computed_residuals X w y)).
  assert (Hl : length losses = length (rows X)).
  { unfold losses, square. now rewrite length_map, computed_residuals_length. }
  destruct (kept_indices_facts (A := A) losses (kept_size_of self X))
    as (HndA & HinA & HszA & _).
  destruct (kept_indices_facts (A := B) losses (kept_size_of self X))
    as (HndB & HinB & HszB & _).
  rewrite Hl in HinA, HinB.
  assert (Hr : (0 <= kept_size_of self X <= len losses)%Z)
    by (unfold len, shape0, len in *; rewrite Hl; lia).
  apply Qle_antisym.
  - apply (kept_sum_minimal (A := A)); auto. lia.
  - apply (kept_sum_minimal (A := B)); auto. lia.
Qed.

Lemma SquaredLoss_call_loss_tie_independent_witness :
  exists (lossA lossB : Q) (gradientA gradientB : list Q),
    SquaredLoss_call (A := stable_argsort)
      {| contamination_proportion := 1 # 2 |} (Matrix 1 [[1]; [2]]) [0] [1; -1]
    = Ok (lossA, gradientA) /\
    SquaredLoss_call (A := reversing_argsort)
      {| contamination_proportion := 1 # 2 |} (Matrix 1 [[1]; [2]]) [0] [1; -1]
    = Ok (lossB, gradientB) /\
    lossA == lossB.
Proof.
  apply (SquaredLoss_call_loss_tie_independent
           stable_argsort reversing_argsort
           {| contamination_proportion := 1 # 2 |}
           (Matrix 1 [[1]; [2]]) [0] [1; -1]).
  - exact stable_argsort_laws.
  - exact reversing_argsort_laws.
  - repeat constructor.
  - simpl. lia.
  - reflexivity.
  - reflexivity.
  - discriminate.
  - reflexivity.
Defined.

(** ** More contamination, smaller loss *)

Lemma firstn_split_le {B : Type} (m2 m1 : nat) (l : list B) :
  (m2 <= m1)%nat ->
  firstn m1 l = firstn m2 l ++ firstn (m1 - m2) (skipn m2 l).
Proof.
  intros H. rewrite <- (firstn_skipn m2 (firstn m1 l)) at 1.
  now rewrite firstn_firstn, Nat.min_l, skipn_firstn_comm by exact H.
Qed.

Lemma kept_size_antitone (self1 self2 : Loss) (X : matrix) :
  contamination_proportion self1 <= contamination_proportion self2 ->
  (kept_size_of self2 X <= kept_size_of self1 X)%Z.
Proof.
  intros H. unfold kept_size_of, ceil. apply Qceiling_resp_le.
  assert (0 <= inject_Z (shape0 X)) by apply len_nonneg.
  nra.
Qed.

Section Contamination.

Context {A : ArgSort} {AL : ArgSortLaws A}.

(** X4.  On the same valid data and weights, a larger contamination
    proportion (both in [[0, 1)]) keeps no more samples and never gives a
    larger loss. *)
Theorem SquaredLoss_call_loss_antitone
    (self1 self2 : Loss) (X : matrix) (w y : list Q) :
  well_shaped X ->
  (1 <= length (rows X))%nat ->
  length w = ncols X ->
  length y = length (rows X) ->
  0 <= contamination_proportion self1 ->
  contamination_proportion self1 <= contamination_proportion self2 ->
  contamination_proportion self2 < 1 ->
  (kept_size_of self2 X <= kept_size_of self1 X)%Z /\
  exists (loss1 loss2 : Q) (gradient1 gradient2 : list Q),
    SquaredLoss_call self1 X w y = Ok (loss1, gradient1) /\
    SquaredLoss_call self2 X w y = Ok (loss2, gradient2) /\
    loss2 <= loss1.
Proof.
  intros HX Hn Hw Hy H0 H12 H1.
  pose proof (kept_size_antitone self1 self2 X H12) as Hanti.
  split; [exact Hanti|].
  assert (H0' : 0 <= contamination_proportion self2) by lra.
  assert (H1' : contamination_proportion self1 < 1) by lra.
  pose proof (kept_size_bounds self1 X Hn H0 H1') as Hk1.
  pose proof (kept_size_bounds self2 X Hn H0' H1) as Hk2.
  destruct (SquaredLoss_call_on_kept self1 X w y HX Hw Hy)
    as (loss1 & g1 & Hc1 & Hl1 & _); [lia|].
  destruct (SquaredLoss_call_on_kept self2 X w y HX Hw Hy)
    as (loss2 & g2 & Hc2 & Hl2 & _); [lia|].
  cbv zeta in Hl1, Hl2.
  exists loss1, loss2, g1, g2. repeat split; auto.
  set (k1 := kept_size_of self1 X) in *.
  set (k2 := kept_size_of self2 X) in *.
  set (losses := square (computed_residuals X w y)) in *.
  assert (Hl : length losses = length (rows X)).
  { unfold losses, square. now rewrite length_map, computed_residuals_length. }
  assert (Hr : forall k, (0 <= k <= shape0 X)%Z ->
                         len (kept_indices_of k losses) = k).
  { intros k Hk. apply (kept_indices_facts losses k).
    unfold len, shape0, len in *. rewrite Hl. exact Hk. }
  pose proof (Hr k1 ltac:(lia)) as Hlen1.
  pose proof (Hr k2 ltac:(lia)) as Hlen2.
  rewrite (kept_indices_firstn k1 losses) in Hl1, Hlen1 by lia.
  rewrite (kept_indices_firstn k2 losses) in Hl2, Hlen2 by lia.
  rewrite (firstn_split_le (Z.to_nat k2) (Z.to_nat k1)) in Hl1, Hlen1 by lia.
  set (K2 := firstn (Z.to_nat k2) (argsort losses)) in *.
  set (M := firstn (Z.to_nat k1 - Z.to_nat k2)
                   (skipn (Z.to_nat k2) (argsort losses))) in *.
  assert (HK2 : K2 <> []).
  { intros C. rewrite C in Hlen2. unfold len in Hlen2. simpl in Hlen2. lia. }
  pose proof (prefix_mean_le (squared_residual X w y) K2 M HK2) as Hm.
  rewrite Hlen1, Hlen2 in Hm.
  assert (Hq1 : 0 < inject_Z k1)
    by (change 0 with (inject_Z 0); rewrite <- Zlt_Qlt; lia).
  assert (Hq2 : 0 < inject_Z k2)
    by (change 0 with (inject_Z 0); rewrite <- Zlt_Qlt; lia).
  rewrite Hl1, Hl2.
  setoid_replace (1 / inject_Z k2 * Qsum (map (squared_residual X w y) K2))
    with (Qsum (map (squared_residual X w y) K2) / inject_Z k2)
    by (field; lra).
  setoid_replace
    (1 / inject_Z k1 * Qsum (map (squared_residual X w y) (K2 ++ M)))
    with (Qsum (map (squared_residual X w y) (K2 ++ M)) / inject_Z k1)
    by (field; lra).
  apply Hm. intros i j Hi Hj.
  apply (sorted_order_split X w y HX Hw Hy (Z.to_nat k2) i j Hi).
  unfold M in Hj. rewrite <- (firstn_skipn (Z.to_nat k1 - Z.to_nat k2)).
  apply in_or_app. left. exact Hj.
Qed.


End Contamination.

Lemma SquaredLoss_call_loss_antitone_witness :
  (kept_size_of {| contamination_proportion := 3 # 5 |} example_X
   <= kept_size_of example_loss example_X)%Z /\
  exists (loss1 loss2 : Q) (gradient1 gradient2 : list Q),
    SquaredLoss_call (A := stable_argsort) example_loss example_X [2] example_y
    = Ok (loss1, gradient1) /\
    SquaredLoss_call (A := stable_argsort)
      {| contamination_proportion := 3 # 5 |} example_X [2] example_y
    = Ok (loss2, gradient2) /\
    loss2 <= loss1.
Proof.
  apply (SquaredLoss_call_loss_antitone (A := stable_argsort)
           example_loss {| contamination_proportion := 3 # 5 |}
           example_X [2] example_y).
  - repeat constructor.
  - simpl. lia.
  - reflexivity.
  - reflexivity.
  - discriminate.
  - discriminate.
  - reflexivity.
Defined.


(** ** Contamination outside [[0, 1)] *)

Section InvalidContamination.

Context {A : ArgSort} {AL : ArgSortLaws A}.


End InvalidContamination.


(** ** Shapes that do not match *)

(** X8.  A weight vector whose length is not the number of columns, or a
    target vector whose length is neither the number of rows nor one (on
    a matrix with other than one row), makes the call raise
    [ValueError], for every sort and contamination. *)
Theorem SquaredLoss_call_shape_mismatch
    (A : ArgSort) (self : Loss) (X : matrix) (w y : list Q) :
  length w <> ncols X \/
  (length y <> length (rows X) /\ length y <> 1%nat
   /\ length (rows X) <> 1%nat) ->
  SquaredLoss_call self X w y = Raise ValueError.
Proof.
  intros H. unfold SquaredLoss_call, dot.
  destruct (Nat.eqb_spec (ncols X) (length w)) as [E|NE]; [|reflexivity].
  destruct H as [H|(H1 & H2 & H3)]; [congruence|].
  simpl bind. unfold sub. rewrite length_map.
  destruct (Nat.eqb_spec (length (rows X)) (length y)) as [E'|_];
    [congruence|].
  destruct (rows X) as [|r0 [|r1 rs]], y as [|y0 [|y1 ys]]; simpl in *;
    try congruence; reflexivity.
Qed.

Lemma SquaredLoss_call_shape_mismatch_witness :
  SquaredLoss_call (A := stable_argsort) example_loss example_X [1; 1] example_y
  = Raise ValueError /\
  SquaredLoss_call (A := stable_argsort) example_loss example_X [1] [1; 2]
  = Raise ValueError.
Proof.
  split.
  - apply (SquaredLoss_call_shape_mismatch stable_argsort).
    left. simpl. lia.
  - apply (SquaredLoss_call_shape_mismatch stable_argsort).
    right. simpl. lia.
Defined.

(** * Further properties of preprocessor.py *)

(** ** The first loop on exact numbers *)

Lemma ceil_le_iff (q : Q) (z : Z) : (ceil q <= z)%Z <-> q <= inject_Z z.
Proof.
  unfold ceil. split; intros H.
  - apply (Qle_trans _ (inject_Z (Qceiling q))); [apply Qle_ceiling|].
    now rewrite <- Zle_Qle.
  - rewrite <- (Qceiling_Z z). now apply Qceiling_resp_le.
Qed.


(** ** What the grid aggregator keeps and emits *)






Lemma filter_none {B : Type} (f : B -> bool) (l : list B) :
  (forall b, In b l -> f b = false) -> filter f l = [].
Proof.
  induction l as [|b l IH]; intros H; simpl; [reflexivity|].
  rewrite (H b (or_introl eq_refl)). apply IH.
  intros c Hc. apply H. now right.
Qed.





(** ** The call-scoped attribute *)

(** X16.  [threshold_size] lives only inside [__call__]: on the instance
    that a completed call leaves behind, whatever strategy the call used,
    [MeanKernelPreprocessor.combine] finds no such attribute and raises
    [AttributeError] for every list of samples. *)
Theorem combine_after_call
    (C : CombineStrategy) (self self' : KernelPreprocessor) (x y : list Q)
    (out : list Q * list Q) (samples : list sample) :
  KernelPreprocessor_call self x y = Ok (self', out) ->
  MeanKernelPreprocessor_combine self' samples = Raise AttributeError.
Proof.
  unfold KernelPreprocessor_call. intros H.
  destruct (fill self x y (zip x y) []) as [kernels|e]; [|discriminate].
  simpl bind in H.
  destruct (emit _ kernels [] []) as [o|e]; [|discriminate].
  simpl in H. injection H as <- _. reflexivity.
Qed.

Lemma combine_after_call_witness :
  MeanKernelPreprocessor_combine
    (set_threshold_size tiling_example None) [(1, 1)]
  = Raise AttributeError.
Proof.
  apply (combine_after_call MeanKernelPreprocessor_combine tiling_example
           (set_threshold_size tiling_example None) [0] [0]
           ([0; 0; 0; 0], [0; 0; 0; 0]) [(1, 1)]).
  reflexivity.
Defined.

(** ** The density filter: sizes, extremes and errors *)

Lemma noise_only_length (a : list Q) :
  forall labels : list Z,
    length labels = length a ->
    length (noise_only a labels) = count_occ Z.eq_dec labels (-1)%Z.
Proof.
  induction a as [|ai a IH]; intros [|l labels] Hlen; try discriminate;
    [reflexivity|].
  simpl in Hlen. injection Hlen as Hlen. simpl.
  destruct (Z.eqb_spec l (-1)) as [->|NE].
  - destruct (Z.eq_dec (-1) (-1)); [|contradiction]. simpl. now rewrite IH.
  - destruct (Z.eq_dec l (-1)); [contradiction|]. now apply IH.
Qed.

Lemma noise_only_all (a : list Q) :
  forall labels : list Z,
    length labels = length a ->
    Forall (fun l => l = (-1)%Z) labels ->
    noise_only a labels = a.
Proof.
  induction a as [|ai a IH]; intros [|l labels] Hlen Hall; try discriminate;
    [reflexivity|].
  simpl in Hlen. injection Hlen as Hlen.
  inversion Hall as [|? ? -> Hall']; subst. simpl. now rewrite IH.
Qed.

Lemma noise_only_none (a : list Q) :
  forall labels : list Z,
    Forall (fun l => l <> (-1)%Z) labels ->
    noise_only a labels = [].
Proof.
  induction a as [|ai a IH]; intros [|l labels] Hall; try reflexivity.
  inversion Hall as [|? ? Hl Hall']; subst. simpl.
  destruct (Z.eqb_spec l (-1)); [contradiction|]. now apply IH.
Qed.

Section DensityFilterProperties.

Context {L : Labeler}.

Lemma ClusteringPreprocessor_call_labelled
    (self : ClusteringPreprocessor) (x y : list Q) (labels : list Z) :
  mode self = "DBSCAN"%string ->
  length x = length y ->
  fit_labels (eps self) (min_samples self) (zip x y) = Ok labels ->
  length labels = length x ->
  ClusteringPreprocessor_call self x y
  = Ok (Some (noise_only x labels, noise_only y labels)).
Proof.
  intros Hmode Hxy Hfit Hlen. unfold ClusteringPreprocessor_call, c_.
  rewrite Hmode, String.eqb_refl, Hxy, Nat.eqb_refl. simpl.
  rewrite Hfit. simpl.
  rewrite (delete_where_ne x labels Hlen). simpl.
  rewrite (delete_where_ne y labels) by congruence. reflexivity.
Qed.

(** X17.  The two arrays the density filter returns stay parallel: both
    have as many entries as there are noise labels, which is at most the
    number of input samples. *)
Theorem ClusteringPreprocessor_call_sizes
    (self : ClusteringPreprocessor) (x y : list Q) (labels : list Z) :
  mode self = "DBSCAN"%string ->
  length x = length y ->
  fit_labels (eps self) (min_samples self) (zip x y) = Ok labels ->
  length labels = length x ->
  exists (new_x new_y : list Q),
    ClusteringPreprocessor_call self x y = Ok (Some (new_x, new_y)) /\
    length new_x = count_occ Z.eq_dec labels (-1)%Z /\
    length new_y = count_occ Z.eq_dec labels (-1)%Z /\
    (length new_x <= length x)%nat.
Proof.
  intros Hmode Hxy Hfit Hlen.
  exists (noise_only x labels), (noise_only y labels).
  split; [now apply ClusteringPreprocessor_call_labelled|].
  rewrite !noise_only_length by congruence.
  repeat split. rewrite <- Hlen. apply count_occ_bound.
Qed.

(** X18.  When the clustering labels every sample as noise the density
    filter returns its input unchanged; when it labels no sample as noise
    (every sample is in a cluster) it returns two empty arrays. *)
Theorem ClusteringPreprocessor_call_extremes
    (self : ClusteringPreprocessor) (x y : list Q) (labels : list Z) :
  mode self = "DBSCAN"%string ->
  length x = length y ->
  fit_labels (eps self) (min_samples self) (zip x y) = Ok labels ->
  length labels = length x ->
  (Forall (fun l => l = (-1)%Z) labels ->
   ClusteringPreprocessor_call self x y = Ok (Some (x, y))) /\
  (Forall (fun l => l <> (-1)%Z) labels ->
   ClusteringPreprocessor_call self x y = Ok (Some ([], []))).
Proof.
  intros Hmode Hxy Hfit Hlen.
  rewrite (ClusteringPreprocessor_call_labelled self x y labels)
    by assumption.
  split; intros H.
  - now rewrite !noise_only_all by congruence.
  - now rewrite !noise_only_none.
Qed.

(** X19.  In mode ["DBSCAN"] the density filter raises [ValueError] on
    arrays of different lengths, before the clustering is consulted, and
    passes on unchanged whatever exception the clustering raises. *)
Theorem ClusteringPreprocessor_call_errors
    (self : ClusteringPreprocessor) (x y : list Q) :
  mode self = "DBSCAN"%string ->
  (length x <> length y ->
   ClusteringPreprocessor_call self x y = Raise ValueError) /\
  (forall e : exn,
     length x = length y ->
     fit_labels (eps self) (min_samples self) (zip x y) = Raise e ->
     ClusteringPreprocessor_call self x y = Raise e).
Proof.
  intros Hmode. unfold ClusteringPreprocessor_call, c_.
  rewrite Hmode, String.eqb_refl. split.
  - intros H. destruct (Nat.eqb_spec (length x) (length y));
      [contradiction|reflexivity].
  - intros e Hxy Hfit. rewrite Hxy, Nat.eqb_refl. simpl. now rewrite Hfit.
Qed.

End DensityFilterProperties.

Lemma ClusteringPreprocessor_call_sizes_witness :
  exists (new_x new_y : list Q),
    ClusteringPreprocessor_call (L := example_labeler)
      (ClusteringPreprocessor_init "DBSCAN" 1 5)
      [1; 7; 2; 3; 9] [6; 7; 8; 9; 10]
    = Ok (Some (new_x, new_y)) /\
    length new_x = 2%nat /\
    length new_y = 2%nat /\
    (length new_x <= 5)%nat.
Proof.
  apply (ClusteringPreprocessor_call_sizes (L := example_labeler)
           (ClusteringPreprocessor_init "DBSCAN" 1 5)
           [1; 7; 2; 3; 9] [6; 7; 8; 9; 10] [0; -1; 0; 0; -1]%Z);
    reflexivity.
Defined.

Lemma ClusteringPreprocessor_call_extremes_witness :
  ClusteringPreprocessor_call (L := all_noise_labeler)
    (ClusteringPreprocessor_init "DBSCAN" 1 5) [1; 2; 3] [4; 5; 6]
  = Ok (Some ([1; 2; 3], [4; 5; 6])) /\
  ClusteringPreprocessor_call (L := one_cluster_labeler)
    (ClusteringPreprocessor_init "DBSCAN" 1 5) [1; 2; 3] [4; 5; 6]
  = Ok (Some ([], [])).
Proof.
  split.
  - apply (proj1 (ClusteringPreprocessor_call_extremes
                    (L := all_noise_labeler)
                    (ClusteringPreprocessor_init "DBSCAN" 1 5)
                    [1; 2; 3] [4; 5; 6] [-1; -1; -1]%Z
                    eq_refl eq_refl eq_refl eq_refl)).
    repeat constructor.
  - apply (proj2 (ClusteringPreprocessor_call_extremes
                    (L := one_cluster_labeler)
                    (ClusteringPreprocessor_init "DBSCAN" 1 5)
                    [1; 2; 3] [4; 5; 6] [0; 0; 0]%Z
                    eq_refl eq_refl eq_refl eq_refl)).
    repeat constructor; discriminate.
Defined.

Lemma ClusteringPreprocessor_call_errors_witness :
  ClusteringPreprocessor_call (L := example_labeler)
    (ClusteringPreprocessor_init "DBSCAN" 1 5) [1; 2; 3] [4; 5]
  = Raise ValueError /\
  ClusteringPreprocessor_call (L := failing_labeler)
    (ClusteringPreprocessor_init "DBSCAN" 1 5) [1; 2] [4; 5]
  = Raise ValueError.
Proof.
  split.
  - apply (proj1 (ClusteringPreprocessor_call_errors (L := example_labeler)
                    (ClusteringPreprocessor_init "DBSCAN" 1 5)
                    [1; 2; 3] [4; 5] eq_refl)).
    discriminate.
  - apply (proj2 (ClusteringPreprocessor_call_errors (L := failing_labeler)
                    (ClusteringPreprocessor_init "DBSCAN" 1 5)
                    [1; 2] [4; 5] eq_refl)); reflexivity.
Defined.

(** ** A threshold of zero or less *)



(** * Binary64 facts *)

(** ** Rounding an integer below 2^63 gives a finite number *)

Lemma digits2_pos_bound (p : positive) :
  forall B : Z, (Zpos p < 2 ^ B)%Z -> (0 <= B)%Z ->
                (Zpos (digits2_pos p) <= B)%Z.
Proof.
  induction p as [p IH|p IH|]; intros B H HB; simpl.
  - assert (B <> 0)%Z by (intros ->; simpl in H; lia).
    replace B with (Z.succ (B - 1)) in H by lia.
    rewrite Z.pow_succ_r in H by lia.
    specialize (IH (B - 1)%Z). lia.
  - assert (B <> 0)%Z by (intros ->; simpl in H; lia).
    replace B with (Z.succ (B - 1)) in H by lia.
    rewrite Z.pow_succ_r in H by lia.
    specialize (IH (B - 1)%Z). lia.
  - assert (B <> 0)%Z by (intros ->; simpl in H; lia). lia.
Qed.

Lemma Zdigits2_bound (m B : Z) :
  (0 <= m < 2 ^ B)%Z -> (0 <= B)%Z -> (Zdigits2 m <= B)%Z.
Proof.
  intros [H0 H] HB. destruct m as [|p|p]; simpl; [exact HB| |lia].
  now apply digits2_pos_bound.
Qed.





Lemma iter_xO_value (p k : positive) :
  Zpos (Pos.iter xO p k) = (Zpos p * 2 ^ Zpos k)%Z.
Proof.
  induction k as [|k IH] using Pos.peano_ind.
  - simpl. lia.
  - rewrite Pos.iter_succ, Pos2Z.inj_xO, IH, Pos2Z.inj_succ,
      Z.pow_succ_r by lia. lia.
Qed.



(** ** A product with zero *)




(** ** Digits *)

Lemma digits2_pos_lt (p : positive) : (Zpos p < 2 ^ Zpos (digits2_pos p))%Z.
Proof.
  induction p as [p IH|p IH|]; simpl digits2_pos.
  - rewrite Pos2Z.inj_succ, Z.pow_succ_r by lia. lia.
  - rewrite Pos2Z.inj_succ, Z.pow_succ_r by lia. lia.
  - reflexivity.
Qed.

Lemma digits2_pos_ge (p : positive) :
  (2 ^ (Zpos (digits2_pos p) - 1) <= Zpos p)%Z.
Proof.
  induction p as [p IH|p IH|]; simpl digits2_pos.
  - rewrite Pos2Z.inj_succ.
    replace (Z.succ (Zpos (digits2_pos p)) - 1)%Z
      with (Z.succ (Zpos (digits2_pos p) - 1)) by lia.
    rewrite Z.pow_succ_r by lia. lia.
  - rewrite Pos2Z.inj_succ.
    replace (Z.succ (Zpos (digits2_pos p)) - 1)%Z
      with (Z.succ (Zpos (digits2_pos p) - 1)) by lia.
    rewrite Z.pow_succ_r by lia. lia.
  - simpl. lia.
Qed.

(** ** Shifting a mantissa to the right *)

Lemma iter_pos_nat {B : Type} (f : B -> B) (p : positive) (b : B) :
  iter_pos f p b = Nat.iter (Pos.to_nat p) f b.
Proof.
  revert b. induction p as [p IH|p IH|]; intros b.
  - rewrite Pos2Nat.inj_xI.
    replace (S (2 * Pos.to_nat p))
      with (Pos.to_nat p + (Pos.to_nat p + 1))%nat by lia.
    rewrite !Nat.iter_add. cbn [iter_pos]. rewrite !IH. reflexivity.
  - rewrite Pos2Nat.inj_xO.
    replace (2 * Pos.to_nat p)%nat
      with (Pos.to_nat p + Pos.to_nat p)%nat by lia.
    rewrite Nat.iter_add. cbn [iter_pos]. rewrite !IH. reflexivity.
  - reflexivity.
Qed.

Lemma shr_1_m (r : shr_record) :
  (0 <= shr_m r)%Z -> shr_m (shr_1 r) = (shr_m r / 2)%Z.
Proof.
  destruct r as [m rb sb]. cbn [shr_m]. intros H.
  rewrite <- Z.div2_div.
  destruct m as [|[p|p|]|p]; try reflexivity. lia.
Qed.

Lemma shr_1_exact (r : shr_record) :
  (0 <= shr_m r)%Z ->
  shr_r r = false -> shr_s r = false -> Z.even (shr_m r) = true ->
  shr_r (shr_1 r) = false /\ shr_s (shr_1 r) = false.
Proof.
  destruct r as [m rb sb]. cbn [shr_m shr_r shr_s]. intros H -> -> He.
  destruct m as [|[p|p|]|p]; try discriminate He; try lia;
    split; reflexivity.
Qed.

Lemma shr_iter (M : Z) (j : nat) :
  (0 <= M)%Z ->
  let r := Nat.iter j shr_1 (Build_shr_record M false false) in
  shr_m r = (M / 2 ^ Z.of_nat j)%Z /\
  ((M mod 2 ^ Z.of_nat j = 0)%Z -> shr_r r = false /\ shr_s r = false).
Proof.
  intros HM. induction j as [|j IH].
  - simpl. rewrite Z.div_1_r. auto.
  - cbn zeta in IH |- *. destruct IH as [Hm Hx].
    rewrite Nat.iter_succ.
    set (r := Nat.iter j shr_1 (Build_shr_record M false false)) in *.
    assert (Hp : (0 < 2 ^ Z.of_nat j)%Z) by (apply Z.pow_pos_nonneg; lia).
    assert (Hr : (0 <= shr_m r)%Z)
      by (rewrite Hm; apply Z.div_pos; lia).
    rewrite Nat2Z.inj_succ, Z.pow_succ_r by lia.
    split.
    + rewrite shr_1_m by exact Hr. rewrite Hm.
      rewrite Z.div_div by lia. f_equal. lia.
    + intros H0.
      assert (Hq : (M = 2 * 2 ^ Z.of_nat j * (M / (2 * 2 ^ Z.of_nat j)))%Z).
      { assert (D := Z.div_mod M (2 * 2 ^ Z.of_nat j) ltac:(lia)). lia. }
      set (q := (M / (2 * 2 ^ Z.of_nat j))%Z) in *.
      assert (Hmod : (M mod 2 ^ Z.of_nat j = 0)%Z).
      { rewrite Hq. replace (2 * 2 ^ Z.of_nat j * q)%Z
          with ((2 * q) * 2 ^ Z.of_nat j)%Z by lia.
        apply Z.mod_mul. lia. }
      destruct (Hx Hmod) as [Hrr Hrs].
      apply shr_1_exact; auto.
      rewrite Hm, Hq.
      replace (2 * 2 ^ Z.of_nat j * q)%Z
        with ((2 * q) * 2 ^ Z.of_nat j)%Z by lia.
      rewrite Z.div_mul by lia. rewrite Z.even_mul. reflexivity.
Qed.

(** [shr] by [k > 0] positions: the quotient, and no lost bit when the
    division is exact. *)
Lemma shr_spec (M e k : Z) :
  (0 <= M)%Z -> (0 < k)%Z ->
  let '(mrs, e') := shr (Build_shr_record M false false) e k in
  e' = (e + k)%Z /\
  shr_m mrs = (M / 2 ^ k)%Z /\
  ((M mod 2 ^ k = 0)%Z -> loc_of_shr_record mrs = loc_Exact).
Proof.
  intros HM Hk. destruct k as [|p|p]; try lia. unfold shr.
  rewrite iter_pos_nat.
  destruct (shr_iter M (Pos.to_nat p) HM) as [Hm Hx].
  rewrite positive_nat_Z in Hm, Hx.
  split; [reflexivity|]. split; [exact Hm|].
  intros H0. destruct (Hx H0) as [Hr Hs].
  destruct (Nat.iter (Pos.to_nat p) shr_1 _) as [m rb sb].
  cbn [shr_r shr_s] in Hr, Hs. subst. reflexivity.
Qed.

Lemma round_nearest_even_bounds (m : Z) (l : location) :
  (m <= round_nearest_even m l <= m + 1)%Z.
Proof.
  unfold round_nearest_even.
  destruct l as [|[| |]]; try destruct (Z.even m); lia.
Qed.

(** ** The value that [binary_round_aux] returns *)

(** The second normalisation, after rounding: the mantissa has at most 53
    bits, or is 2^53. *)
Lemma binary_round_aux_finish (sx : bool) (m' e1 : Z) :
  (-1074 <= e1 <= 970)%Z -> (0 <= m' <= 2 ^ 53)%Z ->
  (let '(mrs, e2) := shr_fexp 53 1024 m' e1 loc_Exact in
   match shr_m mrs with
   | Z0 => S754_zero sx
   | Zpos m => if (e2 <=? 1024 - 53)%Z then S754_finite sx m e2
               else S754_infinity sx
   | Zneg _ => S754_nan
   end)
  = match m' with
    | Zpos p =>
        if (m' =? 2 ^ 53)%Z then S754_finite sx (2 ^ 52)%positive (e1 + 1)
        else S754_finite sx p e1
    | _ => S754_zero sx
    end.
Proof.
  intros He Hm. unfold shr_fexp.
  destruct (Z.eqb_spec m' (2 ^ 53)) as [E|E].
  - subst m'. change (Zdigits2 (2 ^ 53)) with 54%Z.
    replace (fexp 53 1024 (54 + e1) - e1)%Z with 1%Z
      by (unfold fexp, emin; lia).
    cbn [shr_record_of_loc shr iter_pos]. cbn.
    destruct (Z.leb_spec (e1 + 1) 971); [reflexivity|lia].
  - destruct m' as [|p|p]; [| |lia].
    + cbn [Zdigits2].
      destruct (fexp 53 1024 (0 + e1) - e1)%Z as [|q|q] eqn:En;
        [reflexivity| |reflexivity].
      unfold fexp, emin in En. lia.
    + assert (Hd : (Zdigits2 (Zpos p) <= 53)%Z)
        by (apply Zdigits2_bound; lia).
      destruct (fexp 53 1024 (Zdigits2 (Zpos p) + e1) - e1)%Z
        as [|q|q] eqn:En.
      * cbn. destruct (Z.leb_spec e1 971); [reflexivity|lia].
      * unfold fexp, emin in En. lia.
      * cbn. destruct (Z.leb_spec e1 971); [reflexivity|lia].
Qed.

(** Rounding [M * 2^e] to binary64: the mantissa is shifted right by
    [k >= 0] positions to the exponent [e'] of the format and rounded to
    [m'], the quotient or its successor, and the quotient itself when the
    division is exact; the result is [m' * 2^e']. *)
Lemma binary_round_aux_value (sx : bool) (M e : Z) :
  (0 < M)%Z ->
  let e' := Z.max e (fexp 53 1024 (Zdigits2 M + e)) in
  let k := (e' - e)%Z in
  (e' <= 970)%Z ->
  exists m' : Z,
    (M / 2 ^ k <= m' <= M / 2 ^ k + 1)%Z /\
    ((M mod 2 ^ k = 0)%Z -> m' = (M / 2 ^ k)%Z) /\
    (m' <= 2 ^ 53)%Z /\
    binary_round_aux 53 1024 sx M e loc_Exact
    = match m' with
      | Zpos p =>
          if (m' =? 2 ^ 53)%Z then S754_finite sx (2 ^ 52)%positive (e' + 1)
          else S754_finite sx p e'
      | _ => S754_zero sx
      end.
Proof.
  intros HM e' k He'.
  assert (He1 : (-1074 <= fexp 53 1024 (Zdigits2 M + e))%Z)
    by (unfold fexp, emin; lia).
  assert (HD : (M < 2 ^ Zdigits2 M)%Z).
  { destruct M as [|p|p]; try lia. apply digits2_pos_lt. }
  assert (HD0 : (0 < Zdigits2 M)%Z) by (destruct M; simpl; lia).
  unfold binary_round_aux.
  unfold shr_fexp at 1. cbn [shr_record_of_loc].
  destruct (Z.le_gt_cases (fexp 53 1024 (Zdigits2 M + e)) e) as [Hle|Hgt].
  - (* no shift *)
    assert (Ee : e' = e) by (unfold e'; lia).
    assert (Ek : k = 0%Z) by (unfold k; lia).
    exists M. rewrite Ek, Z.pow_0_r, Z.div_1_r.
    assert (HM53 : (M < 2 ^ 53)%Z).
    { apply (Z.lt_le_trans _ _ _ HD). apply Z.pow_le_mono_r; [lia|].
      unfold fexp, emin in Hle. lia. }
    split; [lia|]. split; [reflexivity|]. split; [lia|].
    assert (Es : shr (Build_shr_record M false false) e
                     (fexp 53 1024 (Zdigits2 M + e) - e)
                 = (Build_shr_record M false false, e)).
    { unfold shr.
      destruct (fexp 53 1024 (Zdigits2 M + e) - e)%Z eqn:En;
        try reflexivity. lia. }
    rewrite Es. cbn [shr_m loc_of_shr_record round_nearest_even].
    rewrite (binary_round_aux_finish sx M e) by lia.
    rewrite Ee. reflexivity.
  - (* a shift by k > 0 *)
    assert (Ee : e' = fexp 53 1024 (Zdigits2 M + e)) by (unfold e'; lia).
    assert (Hk : (0 < k)%Z) by (unfold k; lia).
    assert (Ek : (fexp 53 1024 (Zdigits2 M + e) - e)%Z = k)
      by (unfold k; lia).
    rewrite Ek.
    assert (S := shr_spec M e k ltac:(lia) Hk).
    destruct (shr (Build_shr_record M false false) e k) as [mrs e1].
    destruct S as (-> & Hq & Hx).
    rewrite Hq.
    exists (round_nearest_even (M / 2 ^ k) (loc_of_shr_record mrs)).
    assert (Hb := round_nearest_even_bounds (M / 2 ^ k)
                    (loc_of_shr_record mrs)).
    assert (Hq53 : (M / 2 ^ k < 2 ^ 53)%Z).
    { apply Z.div_lt_upper_bound; [apply Z.pow_pos_nonneg; lia|].
      rewrite <- Z.pow_add_r by lia.
      apply (Z.lt_le_trans _ _ _ HD). apply Z.pow_le_mono_r; [lia|].
      unfold k. rewrite Ee. unfold fexp, emin. lia. }
    assert (Hq0 : (0 <= M / 2 ^ k)%Z)
      by (apply Z.div_pos; [lia|apply Z.pow_pos_nonneg; lia]).
    split; [exact Hb|]. split.
    { intros H0. rewrite (Hx H0). reflexivity. }
    split; [lia|].
    replace (e + k)%Z with e' by (unfold k; lia).
    apply binary_round_aux_finish; lia.
Qed.

(** The same for a quotient that is not zero: a finite number
    [md * 2^ed] with the value [m' * 2^e']. *)
Lemma binary_round_aux_finite (sx : bool) (M e : Z) :
  (0 < M)%Z ->
  let e' := Z.max e (fexp 53 1024 (Zdigits2 M + e)) in
  let k := (e' - e)%Z in
  (e' <= 970)%Z ->
  (1 <= M / 2 ^ k)%Z ->
  exists (m' : Z) (md : positive) (ed : Z),
    (M / 2 ^ k <= m' <= M / 2 ^ k + 1)%Z /\
    ((M mod 2 ^ k = 0)%Z -> m' = (M / 2 ^ k)%Z) /\
    binary_round_aux 53 1024 sx M e loc_Exact = S754_finite sx md ed /\
    (ed = e' \/ ed = (e' + 1)%Z /\ m' = (2 ^ 53)%Z) /\
    (Zpos md * 2 ^ (ed - e') = m')%Z.
Proof.
  intros HM e' k He' Hq.
  destruct (binary_round_aux_value sx M e HM He')
    as (m' & Hb & Hx & H53 & E).
  cbv zeta in Hb, Hx, E. fold e' in Hb, Hx, E. fold k in Hb, Hx.
  destruct m' as [|p|p]; [lia| |lia].
  destruct (Z.eqb_spec (Zpos p) (2 ^ 53)) as [E53|N53].
  - exists (Zpos p), (2 ^ 52)%positive, (e' + 1)%Z.
    repeat (split; [assumption|]). split; [right; split; [reflexivity|exact E53]|].
    replace (e' + 1 - e')%Z with 1%Z by lia. rewrite E53. reflexivity.
  - exists (Zpos p), p, e'.
    repeat (split; [assumption|]). split; [now left|].
    rewrite Z.sub_diag. lia.
Qed.

(** The quotient is not zero when the exponent is not below the least
    one, or when the mantissa is at least [2^(-1074 - e)]. *)
Lemma round_quotient_pos (M e : Z) :
  (0 < M)%Z ->
  let e' := Z.max e (fexp 53 1024 (Zdigits2 M + e)) in
  let k := (e' - e)%Z in
  (-1074 <= e \/ 2 ^ (-1074 - e) <= M)%Z ->
  (1 <= M / 2 ^ k)%Z.
Proof.
  intros HM e' k H.
  assert (Hk0 : (0 <= k)%Z) by (unfold k, e'; lia).
  apply Z.div_le_lower_bound; [apply Z.pow_pos_nonneg; lia|].
  rewrite Z.mul_1_r.
  assert (HD : (2 ^ (Zdigits2 M - 1) <= M)%Z).
  { destruct M as [|p|p]; try lia. apply digits2_pos_ge. }
  assert (HD0 : (0 < Zdigits2 M)%Z) by (destruct M; simpl; lia).
  destruct (Z.le_gt_cases k (Zdigits2 M - 1)) as [Hk|Hk].
  - apply (Z.le_trans _ (2 ^ (Zdigits2 M - 1))); [|exact HD].
    apply Z.pow_le_mono_r; lia.
  - assert (Ek : k = (-1074 - e)%Z)
      by (unfold k, e', fexp, emin in *; lia).
    destruct H as [H|H]; [lia|]. now rewrite Ek.
Qed.

(** ** An integer as a binary64 number *)

Lemma shl_align_value (mx : positive) (ex ez : Z) :
  (ez <= ex)%Z ->
  Zpos (fst (shl_align mx ex ez)) = (Zpos mx * 2 ^ (ex - ez))%Z.
Proof.
  intros H. unfold shl_align.
  destruct (ez - ex)%Z as [|p|p] eqn:E; try lia.
  - replace (ex - ez)%Z with 0%Z by lia. simpl. lia.
  - cbn [fst]. rewrite iter_xO_value. f_equal. f_equal. lia.
Qed.

(** [binary_round] first shifts the mantissa to the left, down to the
    exponent of the format. *)
Lemma binary_round_align (sx : bool) (P : positive) (ez : Z) :
  let e := Z.min ez (fexp 53 1024 (Zpos (digits2_pos P) + ez)) in
  exists M : positive,
    Zpos M = (Zpos P * 2 ^ (ez - e))%Z /\
    binary_round 53 1024 sx P ez
    = binary_round_aux 53 1024 sx (Zpos M) e loc_Exact.
Proof.
  intros e. unfold binary_round, shl_align.
  destruct (fexp 53 1024 (Zpos (digits2_pos P) + ez) - ez)%Z
    as [|p|p] eqn:E.
  - exists P. replace e with ez by (unfold e; lia).
    rewrite Z.sub_diag. split; [simpl; lia|reflexivity].
  - exists P. replace e with ez by (unfold e; lia).
    rewrite Z.sub_diag. split; [simpl; lia|reflexivity].
  - exists (Pos.iter xO P p).
    replace e with (fexp 53 1024 (Zpos (digits2_pos P) + ez))
      by (unfold e; lia).
    split; [|reflexivity].
    rewrite iter_xO_value. f_equal. f_equal. lia.
Qed.

(** A positive integer below 2^53 is a binary64 number. *)
Lemma of_int_exact (n : Z) :
  (1 <= n < 2 ^ 53)%Z ->
  exists (mn : positive) (en : Z),
    Prim2SF (Binary64.of_int n) = S754_finite false mn en /\
    (-52 <= en <= 0)%Z /\
    Zpos mn = (n * 2 ^ (- en))%Z.
Proof.
  intros Hn. unfold Binary64.of_int.
  rewrite FloatAxioms.of_uint63_spec, Uint63.of_Z_spec.
  rewrite Z.mod_small by (change wB with (2 ^ 63)%Z; lia).
  destruct n as [|P|P]; try lia.
  change (binary_normalize prec emax (Zpos P) 0 false)
    with (binary_round 53 1024 false P 0).
  destruct (binary_round_align false P 0) as (M & HM & ->).
  assert (Hd1 : (Zpos (digits2_pos P) <= 53)%Z)
    by (apply digits2_pos_bound; lia).
  assert (Hd0 : (0 < Zpos (digits2_pos P))%Z) by lia.
  assert (HP := digits2_pos_lt P).
  set (e := Z.min 0 (fexp 53 1024 (Zpos (digits2_pos P) + 0))) in *.
  assert (Ee : e = (Zpos (digits2_pos P) - 53)%Z)
    by (unfold e, fexp, emin; lia).
  assert (HM53 : (Zpos M < 2 ^ 53)%Z).
  { rewrite HM. replace (0 - e)%Z with (53 - Zpos (digits2_pos P))%Z by lia.
    apply (Z.lt_le_trans _ (2 ^ Zpos (digits2_pos P)
                            * 2 ^ (53 - Zpos (digits2_pos P)))).
    - apply Z.mul_lt_mono_pos_r; [apply Z.pow_pos_nonneg; lia|exact HP].
    - rewrite <- Z.pow_add_r by lia. apply Z.pow_le_mono_r; lia. }
  assert (HDM : (Zdigits2 (Zpos M) <= 53)%Z)
    by (apply Zdigits2_bound; lia).
  assert (HDM0 : (0 < Zdigits2 (Zpos M))%Z) by (simpl; lia).
  assert (Ee' : Z.max e (fexp 53 1024 (Zdigits2 (Zpos M) + e)) = e)
    by (unfold fexp, emin; lia).
  destruct (binary_round_aux_value false (Zpos M) e ltac:(lia))
    as (m' & Hb & Hx & _ & E).
  { rewrite Ee'. lia. }
  cbv zeta in Hb, Hx, E.
  rewrite Ee' in Hx, E. rewrite Z.sub_diag, Z.pow_0_r in Hx.
  rewrite Z.div_1_r in Hx. specialize (Hx (Z.mod_1_r _)). subst m'.
  destruct (Z.eqb_spec (Zpos M) (2 ^ 53)) as [C|_]; [lia|].
  exists M, e. split; [exact E|]. split; [lia|].
  rewrite HM, Z.sub_0_l. reflexivity.
Qed.

(** ** The difference [1 - c] for [0 <= c < 1] *)

Lemma value_finite_pos (m : positive) (e : Z) :
  0 < Binary64.value_of_spec (S754_finite false m e).
Proof.
  unfold Binary64.value_of_spec.
  destruct (Z.leb_spec 0 e).
  - change 0 with (inject_Z 0). rewrite <- Zlt_Qlt.
    apply Z.mul_pos_pos; [lia|]. apply Z.pow_pos_nonneg; lia.
  - reflexivity.
Qed.

Lemma value_finite_neg (m : positive) (e : Z) :
  Binary64.value_of_spec (S754_finite true m e) < 0.
Proof.
  assert (H := value_finite_pos m e).
  unfold Binary64.value_of_spec in *.
  destruct (0 <=? e)%Z; lra.
Qed.

(** The value of a finite number with an exponent that is not positive,
    against an integer. *)
Lemma value_finite_le (m : positive) (e n : Z) :
  (e <= 0)%Z -> (Zpos m <= n * 2 ^ (- e))%Z ->
  Binary64.value_of_spec (S754_finite false m e) <= inject_Z n.
Proof.
  intros He H. unfold Binary64.value_of_spec.
  destruct (Z.leb_spec 0 e) as [H0|H0].
  - replace e with 0%Z in * by lia. simpl in H.
    rewrite <- Zle_Qle. simpl. lia.
  - unfold Qle, inject_Z. cbn [Qnum Qden].
    rewrite Pos2Z.inj_pow, Z2Pos.id by lia. lia.
Qed.

Lemma value_finite_lt_1 (m : positive) (e : Z) :
  Binary64.value_of_spec (S754_finite false m e) < 1 ->
  (e < 0)%Z /\ (Zpos m < 2 ^ (- e))%Z.
Proof.
  unfold Binary64.value_of_spec.
  destruct (Z.leb_spec 0 e) as [H0|H0]; intros H.
  - exfalso. change 1 with (inject_Z 1) in H. rewrite <- Zlt_Qlt in H.
    assert (0 < 2 ^ e)%Z by (apply Z.pow_pos_nonneg; lia). nia.
  - split; [exact H0|].
    unfold Qlt in H. cbn [Qnum Qden] in H.
    rewrite Pos2Z.inj_pow, Z2Pos.id in H by lia. lia.
Qed.

Lemma valid_exponent (f : float) (s : bool) (m : positive) (e : Z) :
  Prim2SF f = S754_finite s m e -> (-1074 <= e)%Z.
Proof.
  intros H. assert (V := FloatAxioms.Prim2SF_valid f). rewrite H in V.
  unfold valid_binary, bounded, canonical_mantissa in V.
  apply andb_true_iff in V. destruct V as [V _].
  apply Z.eqb_eq in V. rewrite <- V. unfold fexp, emin, prec, emax. lia.
Qed.

Lemma one_minus (c : float) :
  is_number (Prim2SF c) ->
  0 <= Binary64.value c -> Binary64.value c < 1 ->
  exists (md : positive) (ed : Z),
    Prim2SF (PrimFloat.sub 1 c) = S754_finite false md ed /\
    (-1074 <= ed <= 0)%Z /\
    (Zpos md <= 2 ^ (- ed))%Z.
Proof.
  intros Hc H0 H1. rewrite FloatAxioms.sub_spec.
  change (Prim2SF 1) with (S754_finite false 4503599627370496 (-52)).
  unfold Binary64.value in H0, H1.
  assert (Hv := valid_exponent c).
  destruct (Prim2SF c) as [s|s| |s mc ec]; try contradiction.
  - exists 4503599627370496%positive, (-52)%Z.
    split; [reflexivity|]. split; [lia|]. simpl. lia.
  - destruct s.
    { exfalso. assert (N := value_finite_neg mc ec). lra. }
    specialize (Hv false mc ec eq_refl).
    destruct (value_finite_lt_1 mc ec H1) as [Hec Hmc].
    unfold SF64sub, SFsub, cond_Zopp.
    set (ez := Z.min (-52) ec).
    rewrite (shl_align_value 4503599627370496 (-52) ez) by (unfold ez; lia).
    rewrite (shl_align_value mc ec ez) by (unfold ez; lia).
    assert (Hez : (-1074 <= ez <= -52)%Z) by (unfold ez; lia).
    assert (A1 : (4503599627370496 * 2 ^ (-52 - ez) = 2 ^ (- ez))%Z).
    { change 4503599627370496%Z with (2 ^ 52)%Z.
      rewrite <- Z.pow_add_r by lia. f_equal. lia. }
    rewrite A1.
    assert (A2 : (Zpos mc * 2 ^ (ec - ez) < 2 ^ (- ez))%Z).
    { replace (- ez)%Z with (- ec + (ec - ez))%Z by lia.
      rewrite Z.pow_add_r by lia.
      apply Z.mul_lt_mono_pos_r; [apply Z.pow_pos_nonneg; lia|exact Hmc]. }
    assert (A3 : (0 < Zpos mc * 2 ^ (ec - ez))%Z).
    { apply Z.mul_pos_pos; [lia|apply Z.pow_pos_nonneg; lia]. }
    destruct (2 ^ (- ez) - Zpos mc * 2 ^ (ec - ez))%Z as [|P|P] eqn:EP;
      try lia.
    assert (HP : (Zpos P < 2 ^ (- ez))%Z) by lia.
    change (binary_normalize prec emax (Zpos P) ez false)
      with (binary_round 53 1024 false P ez).
    destruct (binary_round_align false P ez) as (M & HM & ->).
    set (e0 := Z.min ez (fexp 53 1024 (Zpos (digits2_pos P) + ez))) in *.
    assert (He0 : (-1074 <= e0 <= ez)%Z)
      by (unfold e0, fexp, emin; lia).
    assert (HM0 : (Zpos M < 2 ^ (- e0))%Z).
    { rewrite HM. replace (- e0)%Z with (- ez + (ez - e0))%Z by lia.
      rewrite Z.pow_add_r by lia.
      apply Z.mul_lt_mono_pos_r; [apply Z.pow_pos_nonneg; lia|exact HP]. }
    assert (HD : (Zdigits2 (Zpos M) <= - e0)%Z)
      by (apply Zdigits2_bound; lia).
    assert (HD0 : (0 < Zdigits2 (Zpos M))%Z) by (simpl; lia).
    set (e' := Z.max e0 (fexp 53 1024 (Zdigits2 (Zpos M) + e0))).
    assert (He' : (-1074 <= e' <= -52)%Z /\ (e0 <= e')%Z)
      by (unfold e', fexp, emin; lia).
    destruct (binary_round_aux_finite false (Zpos M) e0 ltac:(lia))
      as (m' & md & ed & Hb & _ & E & Hed & Hmd).
    { fold e'. lia. }
    { apply round_quotient_pos; lia. }
    fold e' in Hb, Hed, Hmd.
    exists md, ed. split; [exact E|]. split; [lia|].
    assert (Hq : (Zpos M / 2 ^ (e' - e0) < 2 ^ (- e'))%Z).
    { apply Z.div_lt_upper_bound; [apply Z.pow_pos_nonneg; lia|].
      rewrite <- Z.pow_add_r by lia.
      replace (e' - e0 + - e')%Z with (- e0)%Z by lia. exact HM0. }
    assert (Hm' : (m' <= 2 ^ (- e'))%Z) by lia.
    rewrite <- Hmd in Hm'.
    replace (- e')%Z with (- ed + (ed - e'))%Z in Hm' by lia.
    rewrite Z.pow_add_r in Hm' by lia.
    apply Z.mul_le_mono_pos_r in Hm'; [exact Hm'|].
    apply Z.pow_pos_nonneg; lia.
Qed.

(** ** The kept size for [0 <= c < 1] *)

(** Line 21 on [n] samples, [1 <= n < 2^53], and a contamination
    proportion in [[0, 1)]: no error, and a kept size between 1 and [n]. *)
Lemma kept_size_in_range (n : Z) (c : float) :
  (1 <= n < 2 ^ 53)%Z ->
  is_number (Prim2SF c) ->
  0 <= Binary64.value c -> Binary64.value c < 1 ->
  exists kept_size : Z,
    kept_size_binary64 n c = Ok kept_size /\ (1 <= kept_size <= n)%Z.
Proof.
  intros Hn Hc H0 H1.
  destruct (of_int_exact n Hn) as (mn & en & En & Hen & Hmn).
  destruct (one_minus c Hc H0 H1) as (md & ed & Ed & Hed & Hmd).
  unfold kept_size_binary64, Binary64.ceil.
  rewrite FloatAxioms.mul_spec, En, Ed.
  unfold SF64mul, SFmul, prec, emax. cbn [xorb].
  rewrite Pos2Z.inj_mul.
  set (M := (Zpos mn * Zpos md)%Z).
  set (e := (en + ed)%Z).
  assert (HM0 : (0 < M)%Z) by (unfold M; lia).
  assert (He : (-1126 <= e <= 0)%Z) by (unfold e; lia).
  assert (Hpe : (0 < 2 ^ (- en))%Z) by (apply Z.pow_pos_nonneg; lia).
  assert (Hpd : (0 < 2 ^ (- ed))%Z) by (apply Z.pow_pos_nonneg; lia).
  assert (HMn : (M <= n * 2 ^ (- e))%Z).
  { unfold M, e. rewrite Hmn.
    replace (- (en + ed))%Z with (- en + - ed)%Z by lia.
    rewrite Z.pow_add_r by lia. nia. }
  assert (HM53 : (M < 2 ^ (53 - e))%Z).
  { apply (Z.le_lt_trans _ _ _ HMn).
    replace (53 - e)%Z with (53 + - e)%Z by lia.
    rewrite Z.pow_add_r by lia.
    apply Z.mul_lt_mono_pos_r; [apply Z.pow_pos_nonneg; lia|lia]. }
  assert (HD : (Zdigits2 M <= 53 - e)%Z)
    by (apply Zdigits2_bound; lia).
  assert (HD0 : (0 < Zdigits2 M)%Z) by (destruct M; simpl; lia).
  set (e' := Z.max e (fexp 53 1024 (Zdigits2 M + e))).
  assert (He' : (e <= e' <= 0)%Z)
    by (unfold e', fexp, emin; lia).
  destruct (binary_round_aux_finite false M e HM0)
    as (m' & mp & ep & Hb & Hx & E & Hep & Hmp).
  { fold e'. lia. }
  { apply round_quotient_pos; [exact HM0|]. right.
    apply (Z.le_trans _ (2 ^ (- en))).
    - apply Z.pow_le_mono_r; unfold e; lia.
    - unfold M. rewrite Hmn. nia. }
  fold e' in Hb, Hx, Hep, Hmp.
  rewrite E.
  set (k := (e' - e)%Z) in *.
  assert (Hk : (0 <= k)%Z) by (unfold k; lia).
  assert (Hpk : (0 < 2 ^ k)%Z) by (apply Z.pow_pos_nonneg; lia).
  assert (Hpe' : (0 < 2 ^ (- e'))%Z) by (apply Z.pow_pos_nonneg; lia).
  (* the rounded mantissa is at most n * 2^(-e') *)
  assert (HK : (M <= n * 2 ^ (- e') * 2 ^ k)%Z).
  { rewrite <- Z.mul_assoc, <- Z.pow_add_r by lia.
    replace (- e' + k)%Z with (- e)%Z by (unfold k; lia). exact HMn. }
  assert (Hm' : (m' <= n * 2 ^ (- e'))%Z).
  { destruct (Z.eq_dec (M mod 2 ^ k) 0) as [Hz|Hnz].
    - rewrite (Hx Hz). apply Z.div_le_upper_bound; [exact Hpk|]. lia.
    - assert (M <> n * 2 ^ (- e') * 2 ^ k)%Z.
      { intros C. apply Hnz. rewrite C. apply Z.mod_mul. lia. }
      assert (M / 2 ^ k < n * 2 ^ (- e'))%Z
        by (apply Z.div_lt_upper_bound; [exact Hpk|lia]).
      lia. }
  assert (Hep0 : (ep <= 0)%Z).
  { destruct Hep as [->|[-> C]]; [lia|].
    assert (e' <> 0)%Z; [|lia].
    intros Z0. rewrite Z0 in Hm'. simpl in Hm'. lia. }
  assert (Hmpn : (Zpos mp <= n * 2 ^ (- ep))%Z).
  { rewrite <- Hmp in Hm'.
    replace (- e')%Z with (- ep + (ep - e'))%Z in Hm' by lia.
    rewrite Z.pow_add_r, Z.mul_assoc in Hm' by lia.
    apply Z.mul_le_mono_pos_r in Hm'; [exact Hm'|].
    apply Z.pow_pos_nonneg; lia. }
  eexists. split; [reflexivity|].
  assert (Hv0 := value_finite_pos mp ep).
  assert (Hvn := value_finite_le mp ep n Hep0 Hmpn).
  split.
  - assert (C : ~ (Qceiling (Binary64.value_of_spec
                               (S754_finite false mp ep)) <= 0)%Z).
    { intros C. apply (proj1 (ceil_le_iff _ 0%Z)) in C.
      change (inject_Z 0) with 0 in C. lra. }
    lia.
  - apply (ceil_le_iff _ n). exact Hvn.
Qed.

(** * The kept size as the program computes it *)

(** ** Lines 22 to 25 for a given kept size *)

Lemma SquaredLoss_call_from_kept_size_of {A : ArgSort}
    (self : Loss) (X : matrix) (w y : list Q) :
  SquaredLoss_call self X w y
  = SquaredLoss_call_from (kept_size_of self X) X w y.
Proof. reflexivity. Qed.

(** Every integer is the exact kept size of some contamination. *)
Lemma kept_size_realised (X : matrix) (k : Z) :
  (1 <= length (rows X))%nat ->
  exists self : Loss, kept_size_of self X = k.
Proof.
  intros Hn.
  exists {| contamination_proportion :=
              1 - inject_Z k / inject_Z (shape0 X) |}.
  unfold kept_size_of, ceil. cbn [contamination_proportion].
  rewrite <- (Qceiling_Z k) at 2. apply Qceiling_comp.
  assert (Hpos : 0 < inject_Z (shape0 X)).
  { change 0 with (inject_Z 0). rewrite <- Zlt_Qlt. unfold shape0, len. lia. }
  field. lra.
Qed.

(** [ceil] gives the least integer that is not below its argument. *)
Lemma Binary64_ceil_spec (f : float) (k : Z) :
  Binary64.ceil f = Ok k ->
  inject_Z k - 1 < Binary64.value f /\ Binary64.value f <= inject_Z k.
Proof.
  unfold Binary64.ceil, Binary64.value. intros H.
  assert (E : k = Qceiling (Binary64.value_of_spec (Prim2SF f)))
    by (destruct (Prim2SF f); congruence).
  subst k. split.
  - assert (L := Qceiling_lt (Binary64.value_of_spec (Prim2SF f))).
    replace (Qceiling (Binary64.value_of_spec (Prim2SF f)) - 1)%Z
      with (Qceiling (Binary64.value_of_spec (Prim2SF f)) + -1)%Z in L
      by lia.
    rewrite inject_Z_plus in L. exact L.
  - apply Qle_ceiling.
Qed.

Section CallFrom.

Context {A : ArgSort} {AL : ArgSortLaws A}.

Lemma SquaredLoss_call_from_on_kept
    (k : Z) (X : matrix) (w y : list Q) :
  well_shaped X ->
  (1 <= length (rows X))%nat ->
  length w = ncols X ->
  length y = length (rows X) ->
  k <> 0%Z ->
  let kept := kept_indices_of k (square (computed_residuals X w y)) in
  exists (loss : Q) (gradient : list Q),
    SquaredLoss_call_from k X w y = Ok (loss, gradient) /\
    loss == (1 / inject_Z k) * Qsum (map (squared_residual X w y) kept) /\
    length gradient = ncols X /\
    (forall j, (j < ncols X)%nat ->
       nth j gradient 0 ==
       (2 / inject_Z k)
       * Qsum (map (fun i => entry X i j * residual X w y i) kept)).
Proof.
  intros HX Hn Hw Hy Hk.
  destruct (kept_size_realised X k Hn) as [self E].
  rewrite <- E. rewrite <- SquaredLoss_call_from_kept_size_of.
  apply SquaredLoss_call_on_kept; auto. now rewrite E.
Qed.

Lemma kept_in_rows (k : Z) (X : matrix) (w y : list Q) :
  length w = ncols X ->
  length y = length (rows X) ->
  NoDup (kept_indices_of k (square (computed_residuals X w y))) /\
  forall i, In i (kept_indices_of k (square (computed_residuals X w y))) ->
            (i < length (rows X))%nat.
Proof.
  intros Hw Hy.
  destruct (kept_indices_facts (square (computed_residuals X w y)) k)
    as (Hnd & Hin & _).
  split; [exact Hnd|]. intros i Hi. apply Hin in Hi. unfold square in Hi.
  now rewrite length_map, computed_residuals_length in Hi.
Qed.

Lemma kept_smallest (k : Z) (X : matrix) (w y : list Q) (i j : nat) :
  well_shaped X ->
  length w = ncols X ->
  length y = length (rows X) ->
  In i (kept_indices_of k (square (computed_residuals X w y))) ->
  (j < length (rows X))%nat ->
  ~ In j (kept_indices_of k (square (computed_residuals X w y))) ->
  squared_residual X w y i <= squared_residual X w y j.
Proof.
  intros HX Hw Hy Hi Hj Hnj.
  destruct (kept_indices_facts (square (computed_residuals X w y)) k)
    as (_ & _ & _ & Hmin).
  pose proof (proj2 (kept_in_rows k X w y Hw Hy) i Hi) as Hi'.
  rewrite <- (computed_losses_nth X w y HX Hw Hy i) by auto.
  rewrite <- (computed_losses_nth X w y HX Hw Hy j) by auto.
  apply Hmin; auto. unfold square.
  now rewrite length_map, computed_residuals_length.
Qed.

Lemma kept_length (k : Z) (X : matrix) (w y : list Q) :
  length w = ncols X ->
  length y = length (rows X) ->
  (0 <= k <= shape0 X)%Z ->
  Z.of_nat (length (kept_indices_of k (square (computed_residuals X w y))))
  = k.
Proof.
  intros Hw Hy Hk.
  apply (kept_indices_facts (square (computed_residuals X w y)) k).
  unfold len, shape0, len, square in *.
  now rewrite length_map, computed_residuals_length.
Qed.


(** X2.  Least trimmed squares.  On valid input (shapes that match,
    [1 <= n < 2^53] samples, a contamination proportion in [[0, 1)]), for
    the kept size that line 21 produces: the returned loss is the mean of
    the squared residuals of some set of [kept_size] distinct samples, and
    no set of [kept_size] distinct samples has a smaller mean. *)
Theorem SquaredLoss_call_least_trimmed
    (contamination_proportion : float) (X : matrix) (w y : list Q) :
  well_shaped X ->
  length w = ncols X ->
  length y = length (rows X) ->
  (1 <= shape0 X < 2 ^ 53)%Z ->
  is_number (Prim2SF contamination_proportion) ->
  0 <= Binary64.value contamination_proportion ->
  Binary64.value contamination_proportion < 1 ->
  exists (kept_size : Z) (loss : Q) (gradient : list Q) (kept : list nat),
    kept_size_binary64 (shape0 X) contamination_proportion = Ok kept_size /\
    SquaredLoss_call_binary64 contamination_proportion X w y
    = Ok (loss, gradient) /\
    NoDup kept /\
    Z.of_nat (length kept) = kept_size /\
    (forall i, In i kept -> (i < length (rows X))%nat) /\
    loss == (1 / inject_Z kept_size)
            * Qsum (map (squared_residual X w y) kept) /\
    forall chosen : list nat,
      NoDup chosen ->
      (forall i, In i chosen -> (i < length (rows X))%nat) ->
      Z.of_nat (length chosen) = kept_size ->
      loss <= (1 / inject_Z kept_size)
              * Qsum (map (squared_residual X w y) chosen).
Proof.
  intros HX Hw Hy Hn53 Hc H0 H1.
  destruct (kept_size_in_range (shape0 X) contamination_proportion
              Hn53 Hc H0 H1) as (kept_size & Hk & Hr).
  unfold SquaredLoss_call_binary64. rewrite Hk.
  cbn [bind].
  assert (Hn : (1 <= length (rows X))%nat)
    by (unfold shape0, len in Hr; lia).
  destruct (SquaredLoss_call_from_on_kept kept_size X w y HX Hn Hw Hy)
    as (loss & gradient & Hcall & Hloss & _); [lia|].
  exists kept_size, loss, gradient,
    (kept_indices_of kept_size (square (computed_residuals X w y))).
  split; [reflexivity|].
  split; [exact Hcall|].
  split; [apply (kept_in_rows kept_size X w y Hw Hy)|].
  split; [apply kept_length; [exact Hw|exact Hy|lia]|].
  split; [apply (kept_in_rows kept_size X w y Hw Hy)|].
  split; [exact Hloss|].
  intros chosen Hnd Hin Hlen. rewrite Hloss.
  apply Qmult_le_l.
  - apply Qlt_shift_div_l.
    + change 0 with (inject_Z 0). rewrite <- Zlt_Qlt. lia.
    + lra.
  - apply kept_sum_minimal; auto. lia.
Qed.

(** X6.  A negative kept size is not rejected.  When line 21 produces
    [kept_size < 0] (a contamination proportion above one), the slice
    [[:kept_size]] keeps the first [n - |kept_size|] indices of the sorted
    order (none if that is negative), that is, it drops the [|kept_size|]
    samples with the largest squared residuals, and the call returns the
    sum of the kept squared residuals divided by [kept_size]: a loss that
    is zero or negative. *)
Theorem SquaredLoss_call_excess_contamination
    (contamination_proportion : float) (X : matrix) (w y : list Q)
    (kept_size : Z) :
  well_shaped X ->
  (1 <= length (rows X))%nat ->
  length w = ncols X ->
  length y = length (rows X) ->
  kept_size_binary64 (shape0 X) contamination_proportion = Ok kept_size ->
  (kept_size < 0)%Z ->
  exists (loss : Q) (gradient : list Q) (kept : list nat),
    SquaredLoss_call_binary64 contamination_proportion X w y
    = Ok (loss, gradient) /\
    NoDup kept /\
    length kept = (length (rows X) - Z.to_nat (- kept_size))%nat /\
    (forall i, In i kept -> (i < length (rows X))%nat) /\
    (forall i j, In i kept -> (j < length (rows X))%nat -> ~ In j kept ->
                 squared_residual X w y i <= squared_residual X w y j) /\
    loss == (1 / inject_Z kept_size)
            * Qsum (map (squared_residual X w y) kept) /\
    loss <= 0.
Proof.
  intros HX Hn Hw Hy Hk Hneg. unfold SquaredLoss_call_binary64. rewrite Hk.
  cbn [bind].
  destruct (SquaredLoss_call_from_on_kept kept_size X w y HX Hn Hw Hy)
    as (loss & gradient & Hcall & Hloss & _); [lia|].
  cbv zeta in Hloss.
  set (kept := kept_indices_of kept_size
                 (square (computed_residuals X w y))) in *.
  exists loss, gradient, kept.
  split; [exact Hcall|].
  split; [apply (kept_in_rows kept_size X w y Hw Hy)|].
  split.
  { unfold kept, kept_indices_of, slice_to.
    destruct (Z.leb_spec 0 kept_size) as [C|_]; [lia|].
    rewrite length_firstn.
    rewrite (proj1 (proj2 (perm_seq_facts _ _
                             (sorted_order_perm X w y Hw Hy)))). lia. }
  split; [apply (kept_in_rows kept_size X w y Hw Hy)|].
  split; [intros i j; now apply kept_smallest|].
  split; [exact Hloss|].
  rewrite Hloss.
  pose proof (Qsum_nonneg (squared_residual X w y) kept
                (fun i _ => squared_residual_nonneg X w y i)) as Hs.
  assert (Hq : inject_Z kept_size < 0)
    by (change 0 with (inject_Z 0); rewrite <- Zlt_Qlt; lia).
  assert (Hinv : 1 / inject_Z kept_size <= 0).
  { setoid_replace (1 / inject_Z kept_size)
      with (- (1 / - inject_Z kept_size)) by (field; lra).
    assert (0 < 1 / - inject_Z kept_size).
    { apply Qlt_shift_div_l; lra. }
    lra. }
  nra.
Qed.

End CallFrom.

(** ** The kept size at 25 samples and a contamination of 0.44 *)

(** The binary64 number that 0.44 denotes: within 10^-17 of 44 / 100. *)
Example contamination_044 :
  Binary64.value 0x1.c28f5c28f5c29p-2 - (44 # 100) <= 1 # 10 ^ 17 /\
  (44 # 100) - Binary64.value 0x1.c28f5c28f5c29p-2 <= 1 # 10 ^ 17.
Proof. split; vm_compute; discriminate. Qed.

(** The program keeps 15 samples where the ceiling of the exact product,
    for 0.44 as written and for the binary64 number it is stored as, is
    14. *)
Example kept_size_at_044 :
  kept_size_binary64 25 0x1.c28f5c28f5c29p-2 = Ok 15%Z /\
  Qceiling (25 * (1 - (44 # 100))) = 14%Z /\
  Qceiling (25 * (1 - Binary64.value 0x1.c28f5c28f5c29p-2)) = 14%Z.
Proof. repeat split; vm_compute; reflexivity. Qed.


(** On the 25 samples with residuals [-1 .. -25] the loss is the mean of
    the 15 smallest squares, 1240 / 15, not of the 14 smallest. *)
Example kept_size_at_044_loss :
  exists (loss : Q) (gradient : list Q),
    SquaredLoss_call_binary64 (A := stable_argsort)
      0x1.c28f5c28f5c29p-2 ramp_X [0] ramp_y
    = Ok (loss, gradient) /\
    loss == 1240 # 15 /\
    ~ loss == 1015 # 14.
Proof.
  eexists _, _. split; [vm_compute; reflexivity|].
  split; [reflexivity|discriminate].
Qed.


Lemma SquaredLoss_call_least_trimmed_witness :
  exists (kept_size : Z) (loss : Q) (gradient : list Q) (kept : list nat),
    kept_size_binary64 (shape0 ramp_X) 0x1.c28f5c28f5c29p-2 = Ok kept_size /\
    SquaredLoss_call_binary64 (A := stable_argsort)
      0x1.c28f5c28f5c29p-2 ramp_X [0] ramp_y
    = Ok (loss, gradient) /\
    NoDup kept /\
    Z.of_nat (length kept) = kept_size /\
    (forall i, In i kept -> (i < length (rows ramp_X))%nat) /\
    loss == (1 / inject_Z kept_size)
            * Qsum (map (squared_residual ramp_X [0] ramp_y) kept) /\
    forall chosen : list nat,
      NoDup chosen ->
      (forall i, In i chosen -> (i < length (rows ramp_X))%nat) ->
      Z.of_nat (length chosen) = kept_size ->
      loss <= (1 / inject_Z kept_size)
              * Qsum (map (squared_residual ramp_X [0] ramp_y) chosen).
Proof.
  apply (SquaredLoss_call_least_trimmed (A := stable_argsort)
           0x1.c28f5c28f5c29p-2 ramp_X [0] ramp_y).
  - unfold well_shaped, ramp_X. simpl. repeat constructor.
  - reflexivity.
  - reflexivity.
  - vm_compute. split; [discriminate|reflexivity].
  - exact I.
  - vm_compute. discriminate.
  - vm_compute. reflexivity.
Defined.

Lemma SquaredLoss_call_excess_contamination_witness :
  exists (loss : Q) (gradient : list Q) (kept : list nat),
    SquaredLoss_call_binary64 (A := stable_argsort)
      0x1.8p+0 example_X [2] example_y
    = Ok (loss, gradient) /\
    NoDup kept /\
    length kept = (5 - 2)%nat /\
    (forall i, In i kept -> (i < 5)%nat) /\
    (forall i j, In i kept -> (j < 5)%nat -> ~ In j kept ->
                 squared_residual example_X [2] example_y i
                 <= squared_residual example_X [2] example_y j) /\
    loss == (1 / inject_Z (-2))
            * Qsum (map (squared_residual example_X [2] example_y) kept) /\
    loss <= 0.
Proof.
  apply (SquaredLoss_call_excess_contamination (A := stable_argsort)
           0x1.8p+0 example_X [2] example_y (-2)).
  - repeat constructor.
  - simpl. lia.
  - reflexivity.
  - reflexivity.
  - vm_compute. reflexivity.
  - lia.
Defined.

(** ** Ties under numpy's default sort *)

Lemma kept_indices_smallest_witness :
  NoDup (kept_indices_of (A := stable_argsort) 9 ties_y) /\
  Z.of_nat (length (kept_indices_of (A := stable_argsort) 9 ties_y)) = 9%Z /\
  (forall i, In i (kept_indices_of (A := stable_argsort) 9 ties_y) ->
             (i < 18)%nat) /\
  smallest_prefix ties_y (kept_indices_of (A := stable_argsort) 9 ties_y).
Proof.
  apply (kept_indices_smallest (A := stable_argsort) ties_y 9).
  unfold len. simpl. lia.
Defined.

(** numpy's sort on eighteen equal keys: one partition, which exchanges
    the entries around the middle. *)
Example numpy_argsort_ties :
  numpy_argsort ties_y
  = [0; 15; 14; 13; 12; 11; 10; 9; 8; 7; 6; 5; 4; 3; 2; 1; 16; 17]%nat.
Proof. vm_compute. reflexivity. Qed.

(** C4, as the claim states it, fails: on eighteen samples with one
    squared residual and a kept size of nine, numpy's default sort keeps
    the samples 0 and 8 to 15, not the samples 0 to 8. *)
Lemma kept_indices_not_stable :
  ~ stable_prefix ties_y (kept_indices_of (A := numpy_argsort) 9 ties_y).
Proof.
  intros H.
  assert (E : kept_indices_of (A := numpy_argsort) 9 ties_y
              = [0; 15; 14; 13; 12; 11; 10; 9; 8]%nat)
    by (vm_compute; reflexivity).
  rewrite E in H.
  destruct (H 15%nat 1%nat) as [C|[_ C]].
  - simpl. tauto.
  - simpl. lia.
  - simpl. intros C. repeat (destruct C as [C|C]; [discriminate C|]).
    exact C.
  - revert C. vm_compute. discriminate.
  - lia.
Qed.

(** The tie-break shows in the gradient: with a contamination of 0.5 the
    call on these samples returns [-184 / 9], the stable choice would give
    [-8]. *)
Example numpy_tie_break_gradient :
  exists (loss loss' g g' : Q),
    SquaredLoss_call_binary64 (A := numpy_argsort) 0x1p-1 ties_X [0] ties_y
    = Ok (loss, [g]) /\
    SquaredLoss_call_binary64 (A := stable_argsort) 0x1p-1 ties_X [0] ties_y
    = Ok (loss', [g']) /\
    loss == 1 /\ loss' == 1 /\ g == - (184 # 9) /\ g' == - (8 # 1).
Proof.
  eexists _, _, _, _. split; [vm_compute; reflexivity|].
  split; [vm_compute; reflexivity|]. repeat split; reflexivity.
Qed.

(** * preprocessor.py as the program computes it *)

(** ** The first loop *)

Lemma windows_binary64_NoDup (self : KernelPreprocessor64)
    (x y : list float) (s : sample64) (keys : list (Z * Z)) :
  windows_binary64 self x y s = Ok keys -> NoDup keys.
Proof.
  destruct s as [xi yi]. unfold windows_binary64.
  destruct (Binary64.min x) as [xmin|]; [|discriminate]. cbn [bind].
  destruct (Binary64.ceil _) as [ix_low|]; [|discriminate]. cbn [bind].
  destruct (Binary64.int _) as [ix_high|]; [|discriminate]. cbn [bind].
  destruct (Binary64.min y) as [ymin|]; [|discriminate]. cbn [bind].
  destruct (Binary64.ceil _) as [iy_low|]; [|discriminate]. cbn [bind].
  destruct (Binary64.int _) as [iy_high|]; [|discriminate]. cbn [bind].
  intros [= <-]. apply cross_NoDup; apply range_NoDup.
Qed.

Lemma windows_of_ok (self : KernelPreprocessor64)
    (x y : list float) (s : sample64) (keys : list (Z * Z)) :
  windows_binary64 self x y s = Ok keys -> windows_of self x y s = keys.
Proof. unfold windows_of. now intros ->. Qed.

Lemma range_In (lo hi i : Z) : In i (range lo hi) <-> (lo <= i < hi)%Z.
Proof.
  unfold range. rewrite in_map_iff. split.
  - intros (n & <- & Hn). apply in_seq in Hn. lia.
  - intros H. exists (Z.to_nat (i - lo)). split; [lia|].
    apply in_seq. lia.
Qed.

(** [int] on a rational: truncation toward zero. *)
Lemma quot_ge_iff (v : Q) (i : Z) :
  (i <= Z.quot (Qnum v) (Zpos (Qden v)))%Z <->
  (0 <= v /\ inject_Z i <= v) \/ (v < 0 /\ inject_Z i < v + 1).
Proof.
  destruct v as [n d]. unfold Qle, Qlt, Qplus, inject_Z.
  cbn [Qnum Qden]. rewrite ?Z.mul_1_r, ?Pos.mul_1_r, ?Z.mul_0_l, ?Z.mul_1_l.
  destruct (Z.le_gt_cases 0 n) as [Hn|Hn].
  - rewrite Z.quot_div_nonneg by lia.
    assert (Hm := Z.div_mod n (Zpos d) ltac:(lia)).
    assert (Hb := Z.mod_pos_bound n (Zpos d) ltac:(lia)).
    split.
    + intros H. left. split; [exact Hn|]. nia.
    + intros [[_ H]|[C _]]; [|lia]. nia.
  - replace n with (- - n)%Z at 1 by lia.
    rewrite Z.quot_opp_l by lia.
    rewrite Z.quot_div_nonneg by lia.
    assert (Hm := Z.div_mod (- n) (Zpos d) ltac:(lia)).
    assert (Hb := Z.mod_pos_bound (- n) (Zpos d) ltac:(lia)).
    split.
    + intros H. right. split; [exact Hn|]. nia.
    + intros [[C _]|[_ H]]; [lia|]. nia.
Qed.

Lemma Binary64_ceil_le (f : float) (k i : Z) :
  Binary64.ceil f = Ok k ->
  ((k <= i)%Z <-> Binary64.value f <= inject_Z i).
Proof.
  unfold Binary64.ceil, Binary64.value. intros H.
  assert (E : k = ceil (Binary64.value_of_spec (Prim2SF f)))
    by (unfold ceil; destruct (Prim2SF f); congruence).
  subst k. apply ceil_le_iff.
Qed.

Lemma Binary64_int_ge (f : float) (k i : Z) :
  Binary64.int f = Ok k ->
  ((i <= k)%Z <->
   (0 <= Binary64.value f /\ inject_Z i <= Binary64.value f) \/
   (Binary64.value f < 0 /\ inject_Z i < Binary64.value f + 1)).
Proof.
  unfold Binary64.int, Binary64.value. intros H.
  assert (E : k = Z.quot (Qnum (Binary64.value_of_spec (Prim2SF f)))
                         (Zpos (Qden (Binary64.value_of_spec (Prim2SF f)))))
    by (destruct (Prim2SF f); congruence).
  subst k. apply quot_ge_iff.
Qed.

Lemma range_from_ceil_to_int (lo hi : float) (i_low i_high i : Z) :
  Binary64.ceil lo = Ok i_low ->
  Binary64.int hi = Ok i_high ->
  (In i (range i_low (i_high + 1)) <-> from_ceil_to_int lo hi i).
Proof.
  intros Hlo Hhi. rewrite range_In. unfold from_ceil_to_int.
  rewrite <- (Binary64_ceil_le lo i_low i Hlo).
  rewrite <- (Binary64_int_ge hi i_high i Hhi). lia.
Qed.

(** The keys of lines 57 and 58 are the windows that hold the sample. *)
Lemma windows_binary64_In (self : KernelPreprocessor64)
    (x y : list float) (s : sample64) (keys : list (Z * Z)) :
  windows_binary64 self x y s = Ok keys ->
  forall key, In key keys <-> in_window self x y s key.
Proof.
  destruct s as [xi yi]. unfold windows_binary64, in_window.
  cbn [fst snd].
  destruct (Binary64.min x) as [xmin|]; [|discriminate]. cbn [bind].
  destruct (Binary64.ceil
              (PrimFloat.div (PrimFloat.sub xi xmin) (fst (strides64 self))))
    as [ix_low|] eqn:Exl; [|discriminate].
  cbn [bind].
  destruct (Binary64.int
              (PrimFloat.div
                 (PrimFloat.sub xi
                    (PrimFloat.sub xmin (fst (kernel_size64 self))))
                 (fst (strides64 self))))
    as [ix_high|] eqn:Exh; [|discriminate].
  cbn [bind].
  destruct (Binary64.min y) as [ymin|]; [|discriminate]. cbn [bind].
  destruct (Binary64.ceil
              (PrimFloat.div (PrimFloat.sub yi ymin) (snd (strides64 self))))
    as [iy_low|] eqn:Eyl; [|discriminate].
  cbn [bind].
  destruct (Binary64.int
              (PrimFloat.div
                 (PrimFloat.sub yi
                    (PrimFloat.sub ymin (snd (kernel_size64 self))))
                 (snd (strides64 self))))
    as [iy_high|] eqn:Eyh; [|discriminate].
  cbn [bind].
  intros [= <-] key.
  change (In key (cross (range ix_low (ix_high + 1))
                        (range iy_low (iy_high + 1)))
          <-> exists xmin0 ymin0 : float,
                Ok xmin = Ok xmin0 /\ Ok ymin = Ok ymin0 /\
                from_ceil_to_int
                  (PrimFloat.div (PrimFloat.sub xi xmin0)
                                 (fst (strides64 self)))
                  (PrimFloat.div
                     (PrimFloat.sub xi
                        (PrimFloat.sub xmin0 (fst (kernel_size64 self))))
                     (fst (strides64 self)))
                  (fst key) /\
                from_ceil_to_int
                  (PrimFloat.div (PrimFloat.sub yi ymin0)
                                 (snd (strides64 self)))
                  (PrimFloat.div
                     (PrimFloat.sub yi
                        (PrimFloat.sub ymin0 (snd (kernel_size64 self))))
                     (snd (strides64 self)))
                  (snd key)).
  rewrite cross_In.
  rewrite (range_from_ceil_to_int _ _ ix_low ix_high (fst key) Exl Exh).
  rewrite (range_from_ceil_to_int _ _ iy_low iy_high (snd key) Eyl Eyh).
  split.
  - intros [Hx Hy]. exists xmin, ymin. auto.
  - intros (xmin0 & ymin0 & [= <-] & [= <-] & Hx & Hy). auto.
Qed.

(** X9.  The windows of a sample are the integer points of a rectangle
    with closed sides: when the four bounds of lines 53 to 56 are numbers,
    the sample is assigned to the window [(ix, iy)] exactly when [ix] is at
    least the binary64 quotient [(xi - x.min()) / strides[0]] and at most
    the binary64 quotient [(xi - (x.min() - kernel_size[0])) / strides[0]]
    (below that quotient plus one, when it is negative), and [iy] likewise
    on the y axis; no window is listed twice. *)
Theorem windows_closed_rectangles (self : KernelPreprocessor64)
    (x y : list float) (s : sample64) (keys : list (Z * Z)) :
  windows_binary64 self x y s = Ok keys ->
  NoDup keys /\ forall key, In key keys <-> in_window self x y s key.
Proof.
  intros H. split.
  - exact (windows_binary64_NoDup self x y s keys H).
  - exact (windows_binary64_In self x y s keys H).
Qed.

Lemma windows_closed_rectangles_witness :
  NoDup [(4, 0); (4, 1)]%Z /\
  forall key,
    In key [(4, 0); (4, 1)]%Z <->
    in_window tenth_tiling
      [0x1.999999999999ap-4; 0x1.999999999999ap-2]%float
      [0x1.999999999999ap-4; 0x1.999999999999ap-4]%float
      (0x1.999999999999ap-2, 0x1.999999999999ap-4)%float key.
Proof.
  apply (windows_closed_rectangles tenth_tiling
           [0x1.999999999999ap-4; 0x1.999999999999ap-2]%float
           [0x1.999999999999ap-4; 0x1.999999999999ap-4]%float
           (0x1.999999999999ap-2, 0x1.999999999999ap-4)%float).
  vm_compute. reflexivity.
Defined.

Lemma filled_binary64_groups (assign : sample64 -> list (Z * Z))
    (samples : list sample64) (d : kernels_dict) :
  filled_binary64 assign samples d -> groups_binary64 assign samples d.
Proof.
  intros [Hnd Hget]. split; [exact Hnd|]. split.
  - intros key ms Hin. apply (dict_get_In _ _ _ Hnd) in Hin.
    rewrite Hget in Hin.
    destruct (members_of assign samples key); [discriminate|].
    injection Hin as <-. split; [discriminate|reflexivity].
  - intros key Hne.
    destruct (in_dec (fun a b : Z * Z =>
                        ltac:(decide equality; apply Z.eq_dec))
                     key (map fst d)) as [H|H]; [exact H|].
    apply dict_get_None in H. rewrite Hget in H.
    destruct (members_of assign samples key); [contradiction|discriminate].
Qed.

Lemma fill_binary64_filled (self : KernelPreprocessor64) (x y : list float)
    (samples : list sample64) :
  (forall s, In s samples ->
             exists keys, windows_binary64 self x y s = Ok keys) ->
  forall (done : list sample64) (d : kernels_dict),
    filled_binary64 (windows_of self x y) done d ->
    exists d', fill_binary64 self x y samples d = Ok d' /\
               filled_binary64 (windows_of self x y) (done ++ samples) d'.
Proof.
  induction samples as [|s samples IH]; intros Hw done d Hd; simpl.
  - exists d. now rewrite app_nil_r.
  - destruct (Hw s (or_introl eq_refl)) as [keys Ew]. rewrite Ew. simpl.
    replace (done ++ s :: samples) with ((done ++ [s]) ++ samples)
      by now rewrite <- app_assoc.
    apply IH; [intros s' Hs'; apply Hw; now right|].
    destruct Hd as [Hkeys Hget]. split; [now apply fold_append_keys|].
    intros key.
    rewrite (dict_get_fold_append (exact_sample s) keys
               (windows_binary64_NoDup self x y s keys Ew)), Hget.
    unfold members_of. rewrite filter_app, map_app. simpl.
    rewrite (windows_of_ok self x y s keys Ew).
    fold (members_of (windows_of self x y) done key).
    destruct (existsb (key_eqb key) keys); simpl.
    + destruct (members_of (windows_of self x y) done key); reflexivity.
    + now rewrite app_nil_r.
Qed.

(** When no window bound is a NaN or an infinity the first loop completes,
    and its dictionary has one entry per window that received a sample. *)
Lemma fill_binary64_groups (self : KernelPreprocessor64) (x y : list float) :
  (forall s, In s (List.combine x y) ->
             exists keys, windows_binary64 self x y s = Ok keys) ->
  exists kernels,
    fill_binary64 self x y (List.combine x y) [] = Ok kernels /\
    groups_binary64 (windows_of self x y) (List.combine x y) kernels.
Proof.
  intros Hw.
  destruct (fill_binary64_filled self x y (List.combine x y) Hw [] [])
    as (d & E & Hd).
  - split; [constructor|reflexivity].
  - exists d. split; [exact E|]. now apply filled_binary64_groups.
Qed.

(** Otherwise the call stops at the first sample with a bound that is a
    NaN or an infinity, with the error of that conversion. *)
Lemma fill_binary64_error (self : KernelPreprocessor64) (x y : list float)
    (done rest : list sample64) (s : sample64) (e : exn) :
  (forall s', In s' done ->
              exists keys, windows_binary64 self x y s' = Ok keys) ->
  windows_binary64 self x y s = Raise e ->
  forall d : kernels_dict,
    fill_binary64 self x y (done ++ s :: rest) d = Raise e.
Proof.
  intros Hd Hs. induction done as [|s0 done IH]; intros d; simpl.
  - now rewrite Hs.
  - destruct (Hd s0 (or_introl eq_refl)) as [keys Ek]. rewrite Ek. simpl.
    apply IH. intros s' Hs'. apply Hd. now right.
Qed.

Lemma KernelPreprocessor_call_binary64_error (C : CombineStrategy)
    (self : KernelPreprocessor64) (x y : list float)
    (done rest : list sample64) (s : sample64) (e : exn) :
  List.combine x y = done ++ s :: rest ->
  (forall s', In s' done ->
              exists keys, windows_binary64 self x y s' = Ok keys) ->
  windows_binary64 self x y s = Raise e ->
  KernelPreprocessor_call_binary64 self x y = Raise e.
Proof.
  intros E Hd Hs. unfold KernelPreprocessor_call_binary64.
  rewrite E, (fill_binary64_error self x y done rest s e Hd Hs).
  reflexivity.
Qed.

Lemma groups_binary64_nonempty (assign : sample64 -> list (Z * Z))
    (samples : list sample64) (kernels : kernels_dict) :
  groups_binary64 assign samples kernels ->
  Forall (fun e => snd e <> []) kernels.
Proof.
  intros (_ & H & _). apply Forall_forall. intros [key ms] Hin.
  now apply H in Hin.
Qed.

(** ** The second loop *)

Lemma KernelPreprocessor_call_binary64_mean (self : KernelPreprocessor64)
    (x y : list float) (kernels : kernels_dict) (ts : Z) :
  fill_binary64 self x y (List.combine x y) [] = Ok kernels ->
  Forall (fun e => snd e <> []) kernels ->
  threshold_size_binary64 (len x) (threshold64 self) = Ok ts ->
  KernelPreprocessor_call_binary64 (C := MeanKernelPreprocessor_combine)
    self x y
  = let outs :=
      map mean_of (filter (fun ms => (ts <=? len ms)%Z) (map snd kernels)) in
    Ok (map fst outs, map snd outs).
Proof.
  intros E Hne Ets. unfold KernelPreprocessor_call_binary64.
  rewrite E, Ets. cbn [bind].
  rewrite (emit_mean (set_threshold_size (exact_config self) (Some ts))
             ts kernels eq_refl Hne).
  reflexivity.
Qed.

Lemma map_mean_of_is_mean (l : list (list sample)) :
  Forall2 is_mean (map mean_of l) l.
Proof.
  induction l as [|ms l IH]; simpl; constructor;
    [apply mean_of_is_mean|exact IH].
Qed.

(** An error at line 65 ends the call after the first loop. *)
Lemma KernelPreprocessor_call_binary64_threshold_error
    (C : CombineStrategy) (self : KernelPreprocessor64) (x y : list float)
    (kernels : kernels_dict) (e : exn) :
  fill_binary64 self x y (List.combine x y) [] = Ok kernels ->
  threshold_size_binary64 (len x) (threshold64 self) = Raise e ->
  KernelPreprocessor_call_binary64 self x y = Raise e.
Proof.
  intros E Ets. unfold KernelPreprocessor_call_binary64.
  rewrite E, Ets. reflexivity.
Qed.

(** ** Threshold gating *)

(** C7, as the code has it.  On [n] samples whose window bounds are
    numbers, the grid aggregator with the mean strategy uses one value
    [threshold_size], the ceiling of the binary64 product of [n] and
    [threshold] (the least integer that is not below the rounded product),
    computed from the total number of samples, for all windows: going
    through the windows that the first loop populated, it emits nothing
    for a window with fewer than [threshold_size] samples and exactly one
    sample, the mean of the window's samples, for every other window. *)
Theorem KernelPreprocessor_call_threshold_gating
    (self : KernelPreprocessor64) (x y : list float) (threshold_size : Z) :
  (forall s, In s (List.combine x y) ->
             exists keys, windows_binary64 self x y s = Ok keys) ->
  threshold_size_binary64 (len x) (threshold64 self) = Ok threshold_size ->
  let product :=
    PrimFloat.mul (Binary64.of_int (len x)) (threshold64 self) in
  (inject_Z threshold_size - 1 < Binary64.value product /\
   Binary64.value product <= inject_Z threshold_size) /\
  exists (kernels : kernels_dict) (outs : list sample),
    fill_binary64 self x y (List.combine x y) [] = Ok kernels /\
    groups_binary64 (windows_of self x y) (List.combine x y) kernels /\
    KernelPreprocessor_call_binary64 (C := MeanKernelPreprocessor_combine)
      self x y
    = Ok (map fst outs, map snd outs) /\
    Forall2 is_mean outs
      (filter (fun ms => (threshold_size <=? len ms)%Z) (map snd kernels)).
Proof.
  intros Hw Ets product.
  split; [exact (Binary64_ceil_spec product threshold_size Ets)|].
  destruct (fill_binary64_groups self x y Hw) as (kernels & E & G).
  exists kernels,
    (map mean_of
         (filter (fun ms => (threshold_size <=? len ms)%Z)
                 (map snd kernels))).
  split; [exact E|]. split; [exact G|]. split.
  - apply (KernelPreprocessor_call_binary64_mean self x y kernels
             threshold_size E (groups_binary64_nonempty _ _ _ G) Ets).
  - apply map_mean_of_is_mean.
Qed.

Lemma KernelPreprocessor_call_threshold_gating_witness :
  let product := PrimFloat.mul (Binary64.of_int 25) 0x1.1eb851eb851ecp-2 in
  (inject_Z 8 - 1 < Binary64.value product /\
   Binary64.value product <= inject_Z 8) /\
  exists (kernels : kernels_dict) (outs : list sample),
    fill_binary64 gate_example gate_x gate_y (List.combine gate_x gate_y) []
    = Ok kernels /\
    groups_binary64 (windows_of gate_example gate_x gate_y)
      (List.combine gate_x gate_y) kernels /\
    KernelPreprocessor_call_binary64 (C := MeanKernelPreprocessor_combine)
      gate_example gate_x gate_y
    = Ok (map fst outs, map snd outs) /\
    Forall2 is_mean outs
      (filter (fun ms => (8 <=? len ms)%Z) (map snd kernels)).
Proof.
  apply (KernelPreprocessor_call_threshold_gating
           gate_example gate_x gate_y 8).
  - intros s Hs. vm_compute in Hs.
    repeat (destruct Hs as [<-|Hs]; [eexists; vm_compute; reflexivity|]).
    contradiction.
  - vm_compute. reflexivity.
Defined.

(** The threshold size of the program against the ceiling of the exact
    product: 1 against 2 on 10 samples with the binary64 number nearest to
    0.1, and 8 against 7 on 25 samples with a threshold of 0.28 read as
    28 / 100. *)
Example threshold_size_examples :
  threshold_size_binary64 10 0x1.999999999999ap-4 = Ok 1%Z /\
  Qceiling (10 * Binary64.value 0x1.999999999999ap-4) = 2%Z /\
  threshold_size_binary64 25 0x1.1eb851eb851ecp-2 = Ok 8%Z /\
  Qceiling (25 * (28 # 100)) = 7%Z.
Proof. repeat split; vm_compute; reflexivity. Qed.

(** C7, as the claim states it, fails: the threshold size of the program
    is not always the ceiling of [n * threshold], neither for the exact
    value of the binary64 threshold (10 samples, the binary64 number
    nearest to 0.1: 1 against 2) nor for the fraction [a / b] that the
    threshold is the nearest binary64 number to (25 samples, 28 / 100: 8
    against 7). *)
Lemma threshold_size_not_exact_ceiling :
  ~ (forall (n : Z) (threshold : float) (threshold_size : Z),
       (0 <= n)%Z ->
       0 <= Binary64.value threshold ->
       threshold_size_binary64 n threshold = Ok threshold_size ->
       threshold_size = Qceiling (inject_Z n * Binary64.value threshold)) /\
  ~ (forall (n a b : Z) (threshold_size : Z),
       (0 <= n)%Z ->
       (0 <= a)%Z -> (0 < b)%Z ->
       threshold_size_binary64 n
         (PrimFloat.div (Binary64.of_int a) (Binary64.of_int b))
       = Ok threshold_size ->
       threshold_size = Qceiling (inject_Z n * (inject_Z a / inject_Z b))).
Proof.
  split; intros H.
  - specialize (H 10%Z 0x1.999999999999ap-4%float 1%Z).
    assert (E : 1%Z = Qceiling (inject_Z 10
                                * Binary64.value 0x1.999999999999ap-4)).
    { apply H.
      - lia.
      - vm_compute. discriminate.
      - vm_compute. reflexivity. }
    vm_compute in E. discriminate E.
  - specialize (H 25%Z 28%Z 100%Z 8%Z).
    assert (E : 8%Z = Qceiling (inject_Z 25 * (inject_Z 28 / inject_Z 100))).
    { apply H.
      - lia.
      - lia.
      - lia.
      - vm_compute. reflexivity. }
    vm_compute in E. discriminate E.
Qed.

(** With a threshold of 0.28 on 25 samples the window of seven samples,
    7 / 25 of the input, is dropped: only the two windows of eighteen
    samples contribute. *)
Example gate_example_drops_seven :
  exists (kernels : kernels_dict) (ox1 ox2 oy1 oy2 : Q),
    fill_binary64 gate_example gate_x gate_y (List.combine gate_x gate_y) []
    = Ok kernels /\
    map (fun e => (fst e, len (snd e))) kernels
    = [((0, 0), 1); ((0, 1), 1); ((1, 0), 7); ((1, 1), 7);
       ((2, 0), 18); ((2, 1), 18)]%Z /\
    KernelPreprocessor_call_binary64 (C := MeanKernelPreprocessor_combine)
      gate_example gate_x gate_y
    = Ok ([ox1; ox2], [oy1; oy2]) /\
    ox1 == 3 # 2 /\ ox2 == 3 # 2 /\ oy1 == 0 /\ oy2 == 0.
Proof.
  eexists _, _, _, _, _. split; [vm_compute; reflexivity|].
  split; [vm_compute; reflexivity|].
  split; [vm_compute; reflexivity|].
  repeat split; vm_compute; reflexivity.
Qed.

(** ** No threshold *)




(** The number of windows of a sample when the kernel size is the stride:
    four at the minimum; two ([ix = 4] only, although 0.4 is 3 strides of
    0.1 from the minimum 0.1) where the quotient rounds to
    3.0000000000000004; none for 0.76 over the minimum 0.2 with a stride
    of 0.02, where [ceil] gives 29 and [int] 28; and three along x for
    an [x] of 2^53 + 2 with a stride of 1. *)
Example tiling_window_counts :
  windows_binary64 unit_tiling [0; 0x1p-1; 1]%float [0; 0x1p-1; 1]%float
    (0, 0)%float
  = Ok [(0, 0); (0, 1); (1, 0); (1, 1)]%Z /\
  windows_binary64 tenth_tiling
    [0x1.999999999999ap-4; 0x1.999999999999ap-2]%float
    [0x1.999999999999ap-4; 0x1.999999999999ap-4]%float
    (0x1.999999999999ap-2, 0x1.999999999999ap-4)%float
  = Ok [(4, 0); (4, 1)]%Z /\
  windows_binary64 fiftieth_tiling
    [0x1.999999999999ap-3; 0x1.851eb851eb852p-1]%float
    [0x1.999999999999ap-3; 0x1.999999999999ap-3]%float
    (0x1.851eb851eb852p-1, 0x1.999999999999ap-3)%float
  = Ok [] /\
  windows_binary64 unit_tiling [0; 0x1.0000000000001p+53]%float [0; 0]%float
    (0x1.0000000000001p+53, 0)%float
  = Ok [(9007199254740994, 0); (9007199254740994, 1);
        (9007199254740995, 0); (9007199254740995, 1);
        (9007199254740996, 0); (9007199254740996, 1)]%Z.
Proof. repeat split; vm_compute; reflexivity. Qed.

(** Samples without a window are lost: here both are, and the call
    returns two empty arrays. *)
Example tiling_loses_samples :
  KernelPreprocessor_call_binary64 (C := MeanKernelPreprocessor_combine)
    fiftieth_tiling
    [0x1.999999999999ap-3; 0x1.851eb851eb852p-1]%float
    [0x1.851eb851eb852p-1; 0x1.999999999999ap-3]%float
  = Ok ([], []).
Proof. vm_compute. reflexivity. Qed.

(** ** A stride of zero *)

Lemma ceil_div_zero (d z : float) (s : bool) :
  Prim2SF z = S754_zero s ->
  Binary64.ceil (PrimFloat.div d z) = Raise (zero_division_error d).
Proof.
  intros Hz. unfold Binary64.ceil, zero_division_error.
  rewrite FloatAxioms.div_spec, Hz.
  destruct (Prim2SF d) as [sd|sd| |sd m e]; reflexivity.
Qed.

(** A number less itself is zero. *)
Lemma sub_diag (a : float) :
  is_number (Prim2SF a) -> exists s, Prim2SF (PrimFloat.sub a a) = S754_zero s.
Proof.
  intros Ha. rewrite FloatAxioms.sub_spec.
  destruct (Prim2SF a) as [sa|sa| |sa m e]; try contradiction.
  - destruct sa; eexists; reflexivity.
  - unfold SF64sub, SFsub. rewrite Z.sub_diag. eexists. reflexivity.
Qed.

(** X15.  A stride of zero on either axis is not checked by the
    constructor; on an input with at least one sample the call then stops
    at the first sample, where [ceil] receives the quotient by zero: with
    [ValueError] when the difference between the coordinate and the
    minimum is zero or a NaN ([0 / 0]), and with [OverflowError] otherwise
    (an infinity).  For the x axis this is the first statement of the
    loop; for the y axis the two x bounds have to be computed first.  The
    combine strategy is not reached. *)
Theorem KernelPreprocessor_call_zero_stride
    (C : CombineStrategy) (self : KernelPreprocessor64)
    (x0 y0 : float) (x y : list float) (xmin ymin : float) :
  Binary64.min (x0 :: x) = Ok xmin ->
  Binary64.min (y0 :: y) = Ok ymin ->
  ((exists s, Prim2SF (fst (strides64 self)) = S754_zero s) ->
   KernelPreprocessor_call_binary64 self (x0 :: x) (y0 :: y)
   = Raise (zero_division_error (PrimFloat.sub x0 xmin))) /\
  ((exists s, Prim2SF (snd (strides64 self)) = S754_zero s) ->
   forall ix_low ix_high : Z,
     Binary64.ceil (PrimFloat.div (PrimFloat.sub x0 xmin)
                                  (fst (strides64 self)))
     = Ok ix_low ->
     Binary64.int (PrimFloat.div
                     (PrimFloat.sub x0
                        (PrimFloat.sub xmin (fst (kernel_size64 self))))
                     (fst (strides64 self)))
     = Ok ix_high ->
     KernelPreprocessor_call_binary64 self (x0 :: x) (y0 :: y)
     = Raise (zero_division_error (PrimFloat.sub y0 ymin))).
Proof.
  intros Ex Ey. split.
  - intros [s Hs].
    unfold KernelPreprocessor_call_binary64.
    cbn [List.combine fill_binary64]. unfold windows_binary64.
    rewrite Ex. cbn [bind].
    rewrite (ceil_div_zero _ _ s Hs). reflexivity.
  - intros [s Hs] ix_low ix_high Elow Ehigh.
    unfold KernelPreprocessor_call_binary64.
    cbn [List.combine fill_binary64]. unfold windows_binary64.
    rewrite Ex. cbn [bind]. rewrite Elow. cbn [bind].
    rewrite Ehigh. cbn [bind]. rewrite Ey. cbn [bind].
    rewrite (ceil_div_zero _ _ s Hs). reflexivity.
Qed.

Lemma KernelPreprocessor_call_zero_stride_witness :
  KernelPreprocessor_call_binary64 (C := MeanKernelPreprocessor_combine)
    zero_stride_example [0; 1]%float [0; 1]%float
  = Raise ValueError /\
  KernelPreprocessor_call_binary64 (C := KernelPreprocessor_combine)
    zero_stride_example [1; 0]%float [0; 1]%float
  = Raise OverflowError.
Proof.
  split.
  - apply (proj1 (KernelPreprocessor_call_zero_stride
                    MeanKernelPreprocessor_combine zero_stride_example
                    0 0 [1]%float [1]%float 0 0 eq_refl eq_refl)).
    exists false. reflexivity.
  - apply (proj1 (KernelPreprocessor_call_zero_stride
                    KernelPreprocessor_combine zero_stride_example
                    1 0 [0]%float [1]%float 0 0 eq_refl eq_refl)).
    exists false. reflexivity.
Defined.

(** The first sample at the minimum of the axis: [0 / 0]. *)
Lemma zero_division_error_at_minimum (a : float) :
  is_number (Prim2SF a) ->
  zero_division_error (PrimFloat.sub a a) = ValueError.
Proof.
  intros Ha. destruct (sub_diag a Ha) as [s E].
  unfold zero_division_error. now rewrite E.
Qed.

(** ** The abstract base class *)

Lemma members_of_empty (assign : sample64 -> list (Z * Z))
    (samples : list sample64) (key : Z * Z) :
  (forall s, In s samples -> assign s = []) ->
  members_of assign samples key = [].
Proof.
  intros H. unfold members_of. rewrite filter_none; [reflexivity|].
  intros s Hs. now rewrite (H s Hs).
Qed.

Lemma members_of_In (assign : sample64 -> list (Z * Z))
    (samples : list sample64) (key : Z * Z) (s : sample64) :
  In s samples -> In key (assign s) ->
  members_of assign samples key <> [].
Proof.
  intros Hs Hk E. unfold members_of in E. apply map_eq_nil in E.
  assert (Hin : In s (filter (fun s => existsb (key_eqb key) (assign s))
                             samples)).
  { apply filter_In. split; [exact Hs|]. now apply existsb_key_In. }
  rewrite E in Hin. contradiction.
Qed.

(** X14.  The abstract [KernelPreprocessor] cannot aggregate.  On an input
    whose window bounds are numbers and for which line 65 gives a
    threshold size: as soon as one sample has a window, the base
    [combine] is reached and the call raises [NotImplementedError]; when
    no sample has a window, no window is populated, [combine] is not
    called and the call returns two empty arrays. *)
Theorem KernelPreprocessor_call_abstract
    (self : KernelPreprocessor64) (x y : list float) (threshold_size : Z) :
  (forall s, In s (List.combine x y) ->
             exists keys, windows_binary64 self x y s = Ok keys) ->
  threshold_size_binary64 (len x) (threshold64 self) = Ok threshold_size ->
  ((exists s, In s (List.combine x y) /\ windows_binary64 self x y s <> Ok []) ->
   KernelPreprocessor_call_binary64 (C := KernelPreprocessor_combine)
     self x y
   = Raise NotImplementedError) /\
  ((forall s, In s (List.combine x y) -> windows_binary64 self x y s = Ok []) ->
   KernelPreprocessor_call_binary64 (C := KernelPreprocessor_combine)
     self x y
   = Ok ([], [])).
Proof.
  intros Hw Ets.
  destruct (fill_binary64_groups self x y Hw) as (kernels & E & G).
  destruct G as (_ & Hin & Hcov).
  unfold KernelPreprocessor_call_binary64. rewrite E, Ets. cbn [bind].
  split.
  - intros (s & Hs & Hne).
    destruct (Hw s Hs) as [keys Ek].
    destruct keys as [|key keys]; [contradiction|].
    assert (Hk : In key (map fst kernels)).
    { apply Hcov. apply (members_of_In _ _ key s Hs).
      rewrite (windows_of_ok self x y s _ Ek). now left. }
    destruct kernels as [|[k ms] rest]; [contradiction|]. reflexivity.
  - intros Hnone.
    destruct kernels as [|[k ms] rest]; [reflexivity|].
    destruct (Hin k ms (or_introl eq_refl)) as [Hne Hms].
    exfalso. apply Hne. rewrite Hms. apply members_of_empty.
    intros s Hs. apply (windows_of_ok self x y s []). now apply Hnone.
Qed.

Lemma KernelPreprocessor_call_abstract_witness :
  KernelPreprocessor_call_binary64 (C := KernelPreprocessor_combine)
    unit_tiling [0; 1]%float [0; 1]%float
  = Raise NotImplementedError /\
  KernelPreprocessor_call_binary64 (C := KernelPreprocessor_combine)
    fiftieth_tiling
    [0x1.999999999999ap-3; 0x1.851eb851eb852p-1]%float
    [0x1.851eb851eb852p-1; 0x1.999999999999ap-3]%float
  = Ok ([], []).
Proof.
  split.
  - refine (proj1 (KernelPreprocessor_call_abstract
                     unit_tiling [0; 1]%float [0; 1]%float 0 _ _) _).
    + intros s Hs. vm_compute in Hs.
      repeat (destruct Hs as [<-|Hs]; [eexists; vm_compute; reflexivity|]).
      contradiction.
    + vm_compute. reflexivity.
    + exists (0, 0)%float. split; [now left|]. vm_compute. discriminate.
  - refine (proj2 (KernelPreprocessor_call_abstract
                     fiftieth_tiling
                     [0x1.999999999999ap-3; 0x1.851eb851eb852p-1]%float
                     [0x1.851eb851eb852p-1; 0x1.999999999999ap-3]%float 0
                     _ _) _).
    + intros s Hs. vm_compute in Hs.
      repeat (destruct Hs as [<-|Hs]; [eexists; vm_compute; reflexivity|]).
      contradiction.
    + vm_compute. reflexivity.
    + intros s Hs. vm_compute in Hs.
      repeat (destruct Hs as [<-|Hs]; [vm_compute; reflexivity|]).
      contradiction.
Defined.
